(** * patterninverter.js: inversion and retrograde of a pattern value list

    A shallow embedding of [src/maxmsp/patterninverter.js], a Max/MSP [js]
    object with four inlets and two outlets, and the properties of its five
    sequence modifications.

    Modelling conventions.
    - A JavaScript value is a [value]: an integer number, [undefined] or
      [NaN].  Max delivers the members of a list as numbers; every number is
      taken to be an integer in the range where double arithmetic is exact,
      so [+], [-] and [%] are those of [Z] ([%] is the truncated remainder
      [Z.rem], whose sign is the sign of the dividend; negative zero is
      identified with zero).  Doubles round above 2^53: a theorem whose
      truth depends on a sum or a difference bounds the values by
      [exact_bound], under which every sum and difference [inverse] forms
      stays below 2^53.
    - A JavaScript array is a [list value]; a hole reads as [undefined].
    - The script's global variables are the fields of [state]; every
      function of the script is a function on [state].
    - [outlet(n, a)] appends the pair [(n, a)] to the list of emissions of
      the handler. *)

From Stdlib Require Import String.
From Stdlib Require Import ZArith List Bool Lia Permutation.
Import ListNotations.
Open Scope string_scope.
Open Scope list_scope.
Open Scope Z_scope.

(** ** JavaScript values and arrays *)

Inductive value : Type :=
| Num (z : Z)
| Undefined
| NaN.

(** [a == k] for a number literal [k]. *)
Definition js_eq_num (a : value) (k : Z) : bool :=
  match a with
  | Num z => z =? k
  | _ => false
  end.

(** [a >= k] for a number literal [k]. *)
Definition js_ge_num (a : value) (k : Z) : bool :=
  match a with
  | Num z => k <=? z
  | _ => false
  end.

(** [a + b] and [a - b] on numbers: the integer sum and difference, which
    is what the double operation returns as long as the result stays
    within 2^53 in absolute value (see [exact_bound] below). *)
Definition js_add (a b : value) : value :=
  match a, b with
  | Num x, Num y => Num (x + y)
  | _, _ => NaN
  end.

Definition js_sub (a b : value) : value :=
  match a, b with
  | Num x, Num y => Num (x - y)
  | _, _ => NaN
  end.

(** [a % b]: remainder of the truncated division, [NaN] for a zero divisor. *)
Definition js_rem (a b : value) : value :=
  match a, b with
  | Num x, Num y => if y =? 0 then NaN else Num (Z.rem x y)
  | _, _ => NaN
  end.

Definition array := list value.

(** [new Array(n)]: [n] holes. *)
Definition new_Array (n : nat) : array := repeat Undefined n.

(** [a[i]]: reading past the end gives [undefined]. *)
Definition aget (a : array) (i : nat) : value := nth i a Undefined.

(** [a[i] = v]: writing past the end extends the array with holes. *)
Definition aset (a : array) (i : nat) (v : value) : array :=
  if (i <? length a)%nat
  then firstn i a ++ v :: skipn (S i) a
  else a ++ repeat Undefined (i - length a) ++ [v].

(** [a.push(v)]. *)
Definition push {A : Type} (a : list A) (v : A) : list A := a ++ [v].

(** [a.push(x, y, z)]. *)
Definition push3 (a : array) (x y z : value) : array := a ++ [x; y; z].

(** [for (var i = lo; i < hi; i++)], the bound read before the loop: no
    loop of the script changes the length it is bounded by. *)
Definition for_up {T : Type} (lo hi : nat) (body : T -> nat -> T) (s : T) : T :=
  fold_left body (seq lo (hi - lo)) s.

(** [for (var i = n - 1; i >= 0; i--)]. *)
Definition for_down {T : Type} (n : nat) (body : T -> nat -> T) (s : T) : T :=
  fold_left body (rev (seq 0 n)) s.

(** ** Globals *)

Record state : Type := mkState {
  sustainList : array;
  valueOut : array;
  sustainOut : array;
  scaleLength : Z;
  updateMode : Z;
  matrixRow : Z;
  restValue : Z;
  maxPatternRange : Z;
  (* assigned without [var] in [inverse], hence globals as well *)
  distanceList : array;
  updatedList : array
}.

Definition init : state :=
  {| sustainList := [];
     valueOut := [];
     sustainOut := [];
     scaleLength := 7;
     updateMode := 0;
     matrixRow := 0;
     restValue := -1;
     maxPatternRange := 15;
     distanceList := [];
     updatedList := [] |}.

Definition set_sustainList (a : array) (st : state) : state :=
  mkState a (valueOut st) (sustainOut st) (scaleLength st) (updateMode st)
    (matrixRow st) (restValue st) (maxPatternRange st)
    (distanceList st) (updatedList st).

Definition set_out (vo so : array) (st : state) : state :=
  mkState (sustainList st) vo so (scaleLength st) (updateMode st)
    (matrixRow st) (restValue st) (maxPatternRange st)
    (distanceList st) (updatedList st).

Definition set_scaleLength (i : Z) (st : state) : state :=
  mkState (sustainList st) (valueOut st) (sustainOut st) i (updateMode st)
    (matrixRow st) (restValue st) (maxPatternRange st)
    (distanceList st) (updatedList st).

Definition set_updateMode (i : Z) (st : state) : state :=
  mkState (sustainList st) (valueOut st) (sustainOut st) (scaleLength st) i
    (matrixRow st) (restValue st) (maxPatternRange st)
    (distanceList st) (updatedList st).

Definition set_lists (dl ul : array) (st : state) : state :=
  mkState (sustainList st) (valueOut st) (sustainOut st) (scaleLength st)
    (updateMode st) (matrixRow st) (restValue st) (maxPatternRange st) dl ul.

(** ** Sustain codes and the swap table *)

Definition full : Z := 0.
Definition attack : Z := 1.
Definition sustain : Z := 2.
Definition release : Z := 3.

(** The object [envelopeInverseMap], filled by four assignments; a later
    assignment to a key shadows an earlier one. *)
Definition envelopeInverseMap_object : list (Z * Z) :=
  let o := [] in
  let o := (full, full) :: o in
  let o := (attack, release) :: o in
  let o := (sustain, sustain) :: o in
  let o := (release, attack) :: o in
  o.

Fixpoint object_get (o : list (Z * Z)) (k : Z) : value :=
  match o with
  | [] => Undefined
  | (k', v) :: o' => if k' =? k then Num v else object_get o' k
  end.

(** [envelopeInverseMap[currElem]]: a key that is absent reads [undefined]. *)
Definition envelopeInverseMap (currElem : value) : value :=
  match currElem with
  | Num k => object_get envelopeInverseMap_object k
  | _ => Undefined
  end.

(** ** The sequence modifications *)

(** The loop [sustainOut.push(i, matrixRow, sustainList[i])] shared by
    [identity], [noteReverse] and [inverse]. *)
Definition copy_sustain (st : state) : array :=
  for_up 0 (length (sustainList st))
    (fun so i => push3 so (Num (Z.of_nat i)) (Num (matrixRow st))
                   (aget (sustainList st) i))
    [].

Definition identity (valueList : array) (st : state) : state :=
  let vo := new_Array (length valueList) in
  let vo := for_up 0 (length valueList)
              (fun vo i => aset vo i (aget valueList i)) vo in
  set_out vo (copy_sustain st) st.

Definition noteReverse (valueList : array) (st : state) : state :=
  let vo := new_Array (length valueList) in
  (* fill with rests *)
  let vo := for_up 0 (length vo)
              (fun vo i => aset vo i (Num (restValue st))) vo in
  let '(enabledNotes, enabledIndexes) :=
    for_up 0 (length valueList)
      (fun '(en, ei) i =>
         let note := aget valueList i in
         if js_ge_num note 0 then (push en note, push ei i) else (en, ei))
      ([], []) in
  let enabledIndexes := rev enabledIndexes in
  let vo := for_up 0 (length enabledNotes)
              (fun vo i =>
                 let note := aget enabledNotes i in
                 let idx := nth i enabledIndexes 0%nat in
                 aset vo idx note) vo in
  set_out vo (copy_sustain st) st.

Definition trueReverse (valueList : array) (st : state) : state :=
  let len := length valueList in
  let vo := new_Array len in
  (* copy over list in reverse *)
  let vo := for_down len
              (fun vo i => aset vo i (aget valueList (len - i - 1))) vo in
  (* copy over sustain in reverse, swapping attack and release values *)
  let slen := length (sustainList st) in
  let so := for_down slen
              (fun so i =>
                 let currElem := aget (sustainList st) (slen - i - 1) in
                 push3 so (Num (Z.of_nat (slen - i - 1))) (Num (matrixRow st))
                   (envelopeInverseMap currElem)) [] in
  set_out vo so st.

(** First loop of [inverse]: distances between consecutive non-rest notes;
    the loop state is [(distanceList, prev)]. *)
Definition inverse_distances (valueList : array) : array * value :=
  for_up 1 (length valueList)
    (fun '(dl, prev) i =>
       let curr := aget valueList i in
       if js_eq_num curr (-1) then (push dl (Num 0), prev)
       else (push dl (js_sub prev curr), curr))
    ([Num 0], aget valueList 0).

(** Second loop of [inverse]. *)
Definition inverse_updated (range : Z) (valueList dl : array) : array :=
  for_up 1 (length dl)
    (fun ul i =>
       if js_eq_num (aget valueList i) (-1) then push ul (Num (-1))
       else push ul (js_rem (js_add (aget ul (i - 1)) (aget dl i)) (Num range)))
    [aget valueList 0].

(** [inverse] returns [updatedList]. *)
Definition inverse (valueList : array) (st : state) : array * state :=
  let vo := new_Array (length valueList) in
  let dl := fst (inverse_distances valueList) in
  let ul := inverse_updated (maxPatternRange st) valueList dl in
  (* copy updatedList in valueOut *)
  let vo := for_up 0 (length ul) (fun vo i => aset vo i (aget ul i)) vo in
  let st := set_lists dl ul st in
  (ul, set_out vo (copy_sustain st) st).

Definition reverseInverse (valueList : array) (st : state) : state :=
  let '(updatedList, st) := inverse valueList st in
  trueReverse updatedList st.

(** ** Message handlers *)

Definition msg_int (inlet : Z) (i : Z) (st : state) : state :=
  if inlet =? 2 then set_updateMode i st
  else if inlet =? 3 then set_scaleLength i st
  else st.

(** One call of [outlet]. *)
Definition emission : Type := Z * array.

Definition output (st : state) : list emission :=
  (if (0 <? length (sustainOut st))%nat then [(1, sustainOut st)] else [])
  ++ [(0, valueOut st)].

Inductive completion : Type :=
| Normal
| Throw (message : string).

Record outcome : Type := mkOutcome {
  how : completion;
  final : state;
  emitted : list emission
}.

Definition list_ (inlet : Z) (arguments : array) (st : state) : outcome :=
  if inlet =? 0 then
    if (length (sustainList st) <=? 0)%nat then
      mkOutcome (Throw "Sustain List has not been set") st []
    else
      let valueList := arguments in
      let st :=
        if updateMode st =? 0 then identity valueList st
        else if updateMode st =? 1 then noteReverse valueList st
        else if updateMode st =? 2 then trueReverse valueList st
        else if updateMode st =? 3 then snd (inverse valueList st)
        else reverseInverse valueList st in
      mkOutcome Normal st (output st)
  else if inlet =? 1 then
    let sl := for_up 0 (length arguments)
                (fun sl i => aset sl i (aget arguments i)) [] in
    mkOutcome Normal (set_sustainList sl st) []
  else mkOutcome Normal st [].

(** The pitch output and the sustain output of a handler run. *)
Definition pitch_of (o : outcome) : list array :=
  map snd (filter (fun e => fst e =? 0) (emitted o)).

Definition sustain_of (o : outcome) : list array :=
  map snd (filter (fun e => fst e =? 1) (emitted o)).

(** The stages of a sustain output: every third member, from the third. *)
Fixpoint stages (so : array) : array :=
  match so with
  | _ :: _ :: s :: so' => s :: stages so'
  | _ => []
  end.

Definition nums (l : list Z) : array := map Num l.

(** ** Auxiliary definitions

    Closed forms of the loops, and the vocabulary of the theorems. *)

(** One entry of a sustain output. *)
Definition entry (row : Z) (stage : nat -> value) (i : nat) : array :=
  [Num (Z.of_nat i); Num row; stage i].

(** The value the second loop pushes in round [i]. *)
Definition updated_at (range : Z) (valueList dl ul : array) (i : nat) : value :=
  if js_eq_num (aget valueList i) (-1) then Num (-1)
  else js_rem (js_add (aget ul (i - 1)) (aget dl i)) (Num range).

(** The distances as a recursion on the list after the first value. *)
Fixpoint distances (prev : value) (l : array) : array :=
  match l with
  | [] => []
  | curr :: l' =>
      if js_eq_num curr (-1) then Num 0 :: distances prev l'
      else js_sub prev curr :: distances curr l'
  end.

(** The test [note >= 0] that selects the enabled notes. *)
Definition enabled (note : value) : bool := js_ge_num note 0.

(** The indexes of the enabled notes of [l], counted from [lo]. *)
Fixpoint positions (lo : nat) (l : array) : list nat :=
  match l with
  | [] => []
  | note :: l' =>
      if enabled note then lo :: positions (S lo) l' else positions (S lo) l'
  end.

(** [l] with its enabled slots refilled, left to right, from [ns] and every
    other slot set to the rest value [r]. *)
Fixpoint refill (r : Z) (l ns : array) : array :=
  match l with
  | [] => []
  | note :: l' =>
      if enabled note then
        match ns with
        | n :: ns' => n :: refill r l' ns'
        | [] => Num r :: refill r l' []
        end
      else Num r :: refill r l' ns
  end.

Definition collect_step (s : array * list nat) (e : nat * value)
  : array * list nat :=
  let '(en, ei) := s in
  let '(i, note) := e in
  if js_ge_num note 0 then (push en note, push ei i) else (en, ei).

Definition write_step (vo : array) (e : nat * value) : array :=
  aset vo (fst e) (snd e).

(** A value that is not the rest value. *)
Definition is_note (st : state) (v : value) : bool :=
  negb (js_eq_num v (restValue st)).

(** The range the spec gives the non-rest members of a pitch output. *)
Definition in_pattern_range (st : state) (out : array) : Prop :=
  forall i z,
    nth_error out i = Some (Num z) -> z <> -1 ->
    0 <= z < maxPatternRange st.

(** The modification [list] selects for the current update mode. *)
Definition modify (valueList : array) (st : state) : state :=
  if updateMode st =? 0 then identity valueList st
  else if updateMode st =? 1 then noteReverse valueList st
  else if updateMode st =? 2 then trueReverse valueList st
  else if updateMode st =? 3 then snd (inverse valueList st)
  else reverseInverse valueList st.

(** What a mode does to a sustain code: modes 0, 1 and 3 copy it, every
    other mode looks it up in the swap table. *)
Definition stage_of_mode (mode : Z) (s : value) : value :=
  if (mode =? 0) || (mode =? 1) || (mode =? 3) then s
  else envelopeInverseMap s.

(** A value list with every member that fails [note >= 0] replaced by the
    rest value [r]. *)
Definition rests_normalized (r : Z) (l : array) : array :=
  map (fun v => if enabled v then v else Num r) l.

(** The globals no function of the script assigns. *)
Definition constants (st : state) : Z * Z * Z :=
  (matrixRow st, restValue st, maxPatternRange st).

(** The bound under which the arithmetic of [inverse] is exact in
    doubles: 2^51.  With the values and [maxPatternRange] within it, a
    distance is at most 2^52 and a sum at most 3 * 2^51, below 2^53. *)
Definition exact_bound : Z := 2251799813685248.

Definition exact_int (z : Z) : Prop := - exact_bound <= z <= exact_bound.

(** ** Runs of the object *)

Inductive message : Type :=
| Msg_int (inlet : Z) (i : Z)
| Msg_list (inlet : Z) (arguments : array).

Definition handle (m : message) (st : state) : outcome :=
  match m with
  | Msg_int inlet i => mkOutcome Normal (msg_int inlet i st) []
  | Msg_list inlet arguments => list_ inlet arguments st
  end.

(** The globals after a sequence of messages; a handler that throws leaves
    the globals as they were when it threw. *)
Definition run (ms : list message) (st : state) : state :=
  fold_left (fun st m => final (handle m st)) ms st.

Definition sets_sustain (m : message) : bool :=
  match m with
  | Msg_list inlet _ => inlet =? 1
  | Msg_int _ _ => false
  end.

(** The error the spec calls MissingEnvelope. *)
Definition MissingEnvelope : completion :=
  Throw "Sustain List has not been set".

(** A state whose sustain list is [attack, sustain, release]. *)
Definition with_envelope : state :=
  run [Msg_list 1 (nums [attack; sustain; release])] init.

(** ** Sample runs *)

Example inverse_ex :
  valueOut (snd (inverse (nums [5; 3; 7; -1; 2]) (set_sustainList (nums [1;2;3]) init)))
  = nums [5; 7; 3; -1; 4].
Proof. vm_compute. reflexivity. Qed.

Example noteReverse_ex :
  valueOut (noteReverse (nums [4; -1; 7; 0]) with_envelope) = nums [0; -1; 7; 4].
Proof. vm_compute. reflexivity. Qed.

(** ** Arrays and loops *)

Section Arrays.

Lemma aset_length (a : array) (i : nat) (v : value) :
  (i < length a)%nat -> length (aset a i v) = length a.
Proof.
  intros H. unfold aset.
  destruct (Nat.ltb_spec i (length a)) as [_|Hge]; [|lia].
  rewrite length_app, length_firstn. cbn [length]. rewrite length_skipn. lia.
Qed.

Lemma aset_nth (a : array) (i p : nat) (v d : value) :
  (i < length a)%nat ->
  nth p (aset a i v) d = if (p =? i)%nat then v else nth p a d.
Proof.
  intros H. unfold aset.
  destruct (Nat.ltb_spec i (length a)) as [_|Hge]; [|lia].
  assert (Hl : length (firstn i a) = i) by (rewrite length_firstn; lia).
  destruct (Nat.eqb_spec p i) as [->|Hne].
  - rewrite app_nth2 by lia. rewrite Hl, Nat.sub_diag. reflexivity.
  - destruct (Nat.lt_ge_cases p i) as [Hlt|Hge].
    + rewrite app_nth1 by lia.
      rewrite <- (firstn_skipn i a) at 2. rewrite app_nth1 by lia. reflexivity.
    + rewrite app_nth2 by lia. rewrite Hl.
      destruct (p - i)%nat as [|k] eqn:Hk; [lia|]. cbn [nth].
      rewrite nth_skipn. f_equal. lia.
Qed.

(** Writing [f i] at every index of [idx], in any order. *)
Lemma fold_aset (f : nat -> value) (idx : list nat) :
  forall a : array,
    Forall (fun i => (i < length a)%nat) idx ->
    let r := fold_left (fun vo i => aset vo i (f i)) idx a in
    length r = length a /\
    forall p d, nth p r d = if existsb (Nat.eqb p) idx then f p else nth p a d.
Proof.
  induction idx as [|i idx IH]; intros a Hall; simpl.
  - split; reflexivity.
  - inversion Hall as [|? ? Hi Hrest]; subst.
    destruct (IH (aset a i (f i))) as [Hlen Hnth].
    + rewrite aset_length by assumption. assumption.
    + split.
      * rewrite Hlen. apply aset_length; assumption.
      * intros p d. rewrite Hnth.
        destruct (existsb (Nat.eqb p) idx).
        -- rewrite orb_true_r. reflexivity.
        -- rewrite orb_false_r. rewrite aset_nth by assumption.
           destruct (Nat.eqb_spec p i) as [->|]; reflexivity.
Qed.

Lemma existsb_eqb_In (p : nat) (l : list nat) :
  existsb (Nat.eqb p) l = true <-> In p l.
Proof.
  rewrite existsb_exists. split.
  - intros [x [Hin Heq]]. apply Nat.eqb_eq in Heq. subst. assumption.
  - intros Hin. exists p. split; [assumption|apply Nat.eqb_refl].
Qed.

(** A loop that writes every index of a fresh array tabulates its body. *)
Lemma fill_tabulate (f : nat -> value) (n : nat) (idx : list nat) :
  (forall i, In i idx <-> (i < n)%nat) ->
  fold_left (fun vo i => aset vo i (f i)) idx (new_Array n) = map f (seq 0 n).
Proof.
  intros Hidx.
  destruct (fold_aset f idx (new_Array n)) as [Hlen Hnth].
  - apply Forall_forall. intros i Hi. unfold new_Array.
    rewrite repeat_length. apply Hidx. assumption.
  - unfold new_Array in *. rewrite repeat_length in Hlen.
    apply nth_ext with (d := Undefined) (d' := Undefined).
    + rewrite Hlen, length_map, length_seq. reflexivity.
    + intros p Hp. rewrite Hlen in Hp. rewrite Hnth.
      assert (Hex : existsb (Nat.eqb p) idx = true)
        by (apply existsb_eqb_In, Hidx; assumption).
      rewrite Hex.
      rewrite nth_indep with (d' := f 0%nat)
        by (rewrite length_map, length_seq; assumption).
      rewrite map_nth, seq_nth by assumption. reflexivity.
Qed.

Lemma tabulate_aget (a : array) :
  map (aget a) (seq 0 (length a)) = a.
Proof.
  apply nth_ext with (d := Undefined) (d' := Undefined).
  - rewrite length_map, length_seq. reflexivity.
  - intros p Hp. rewrite length_map, length_seq in Hp.
    rewrite nth_indep with (d' := aget a 0%nat)
      by (rewrite length_map, length_seq; assumption).
    rewrite map_nth, seq_nth by assumption. reflexivity.
Qed.

Lemma tabulate_rev (a : array) :
  map (fun i => aget a (length a - i - 1)) (seq 0 (length a)) = rev a.
Proof.
  apply nth_ext with (d := Undefined) (d' := Undefined).
  - rewrite length_map, length_seq, length_rev. reflexivity.
  - intros p Hp. rewrite length_map, length_seq in Hp.
    rewrite nth_indep with (d' := aget a (length a - 0 - 1))
      by (rewrite length_map, length_seq; assumption).
    rewrite (map_nth (fun i => aget a (length a - i - 1))).
    rewrite seq_nth by assumption.
    rewrite rev_nth by assumption. unfold aget. f_equal. lia.
Qed.

(** The copy loop [for (i = 0; i < src.length; i++) dst[i] = src[i]] into a
    fresh array of the same length. *)
Lemma copy_loop (src : array) :
  for_up 0 (length src) (fun vo i => aset vo i (aget src i))
    (new_Array (length src)) = src.
Proof.
  unfold for_up. rewrite Nat.sub_0_r.
  rewrite fill_tabulate with (f := aget src).
  - apply tabulate_aget.
  - intros i. rewrite in_seq. lia.
Qed.

(** The downward loop of [trueReverse] on the value list. *)
Lemma reverse_loop (src : array) :
  for_down (length src)
    (fun vo i => aset vo i (aget src (length src - i - 1)))
    (new_Array (length src)) = rev src.
Proof.
  unfold for_down.
  rewrite fill_tabulate with (f := fun i => aget src (length src - i - 1)).
  - apply tabulate_rev.
  - intros i. rewrite <- in_rev, in_seq. lia.
Qed.

Lemma firstn_snoc (a : array) :
  forall k, (k < length a)%nat -> firstn (S k) a = firstn k a ++ [aget a k].
Proof.
  induction a as [|x a IH]; intros k Hk; simpl in Hk; [lia|].
  destruct k as [|k]; [reflexivity|].
  rewrite firstn_cons, IH by lia. reflexivity.
Qed.

(** The same copy loop into an empty array, which every write grows. *)
Lemma grow_loop (src : array) :
  for_up 0 (length src) (fun sl i => aset sl i (aget src i)) [] = src.
Proof.
  unfold for_up. rewrite Nat.sub_0_r.
  assert (H : forall k, (k <= length src)%nat ->
            fold_left (fun sl i => aset sl i (aget src i)) (seq 0 k) []
            = firstn k src).
  { induction k as [|k IH]; intros Hk; [reflexivity|].
    rewrite seq_S, fold_left_app, IH by lia. cbn [fold_left Nat.add].
    unfold aset. rewrite length_firstn.
    destruct (Nat.ltb_spec k (Nat.min k (length src))) as [|_]; [lia|].
    replace (k - Nat.min k (length src))%nat with O by lia.
    rewrite firstn_snoc by lia. reflexivity. }
  rewrite H by lia. apply firstn_all.
Qed.

End Arrays.

(** ** Index loops as folds over the array *)

Section Loops.

Lemma fold_left_ext_in {T A : Type} (f g : T -> A -> T) (l : list A) :
  (forall s x, In x l -> f s x = g s x) ->
  forall s, fold_left f l s = fold_left g l s.
Proof.
  induction l as [|x l IH]; intros Hfg s; simpl.
  - reflexivity.
  - rewrite Hfg by (left; reflexivity).
    apply IH. intros s' y Hy. apply Hfg. right. assumption.
Qed.

Lemma fold_left_over_map {T A B : Type} (f : T -> A -> T) (h : B -> A)
    (l : list B) :
  forall s, fold_left f (map h l) s = fold_left (fun s x => f s (h x)) l s.
Proof. induction l as [|x l IH]; intros s; simpl; [reflexivity|apply IH]. Qed.

(** A loop over the indices of [l] that only reads [l[i]] is a fold on [l]. *)
Lemma fold_seq_nth {T A : Type} (body : T -> A -> T) (d : A) (l : list A) :
  forall s,
    fold_left (fun s i => body s (nth i l d)) (seq 0 (length l)) s
    = fold_left body l s.
Proof.
  induction l as [|x l IH] using rev_ind; intros s.
  - reflexivity.
  - rewrite length_app. simpl length. rewrite Nat.add_1_r, seq_S.
    rewrite !fold_left_app. simpl.
    rewrite app_nth2, Nat.sub_diag by lia. simpl. f_equal.
    rewrite <- IH. apply fold_left_ext_in.
    intros s' i Hi. apply in_seq in Hi.
    rewrite app_nth1 by lia. reflexivity.
Qed.

End Loops.

Section Sustain.

Lemma push_loop_flat (g : nat -> array) (idx : list nat) :
  forall acc : array,
    fold_left (fun so i => so ++ g i) idx acc = acc ++ flat_map g idx.
Proof.
  induction idx as [|i idx IH]; intros acc; simpl.
  - rewrite app_nil_r. reflexivity.
  - rewrite IH, <- app_assoc. reflexivity.
Qed.

Lemma mirror_indices (n : nat) :
  map (fun i => (n - i - 1)%nat) (rev (seq 0 n)) = seq 0 n.
Proof.
  apply nth_ext with (d := O) (d' := O).
  - rewrite length_map, length_rev. reflexivity.
  - intros p Hp. rewrite length_map, length_rev, length_seq in Hp.
    rewrite nth_indep with (d' := (n - 0 - 1)%nat)
      by (rewrite length_map, length_rev, length_seq; assumption).
    rewrite (map_nth (fun i => (n - i - 1)%nat)).
    rewrite rev_nth by (rewrite length_seq; assumption).
    rewrite length_seq, !seq_nth by lia. lia.
Qed.

Lemma stages_entries (row : Z) (stage : nat -> value) (idx : list nat) :
  stages (flat_map (entry row stage) idx) = map stage idx.
Proof. induction idx as [|i idx IH]; simpl; [|rewrite IH]; reflexivity. Qed.

Lemma copy_sustain_entries (st : state) :
  copy_sustain st
  = flat_map (entry (matrixRow st) (aget (sustainList st)))
      (seq 0 (length (sustainList st))).
Proof.
  unfold copy_sustain, for_up, push3. rewrite Nat.sub_0_r.
  apply (push_loop_flat (entry (matrixRow st) (aget (sustainList st)))).
Qed.

Lemma copy_sustain_stages (st : state) :
  stages (copy_sustain st) = sustainList st.
Proof.
  rewrite copy_sustain_entries, stages_entries. apply tabulate_aget.
Qed.

Lemma entries_length (row : Z) (stage : nat -> value) (idx : list nat) :
  length (flat_map (entry row stage) idx) = (3 * length idx)%nat.
Proof. induction idx as [|i idx IH]; simpl; [|rewrite IH]; lia. Qed.

End Sustain.

(** ** identity and trueReverse *)

Lemma identity_valueOut (valueList : array) (st : state) :
  valueOut (identity valueList st) = valueList.
Proof. unfold identity. simpl. apply copy_loop. Qed.

Lemma trueReverse_valueOut (valueList : array) (st : state) :
  valueOut (trueReverse valueList st) = rev valueList.
Proof. unfold trueReverse. simpl. apply reverse_loop. Qed.

(** The sustain loop of [trueReverse] runs [i] downwards and reads and tags
    position [length - i - 1]: the entries come out in stored order. *)
Lemma trueReverse_sustainOut (valueList : array) (st : state) :
  sustainOut (trueReverse valueList st)
  = flat_map
      (entry (matrixRow st)
         (fun j => envelopeInverseMap (aget (sustainList st) j)))
      (seq 0 (length (sustainList st))).
Proof.
  unfold trueReverse, for_down, push3. simpl.
  set (n := length (sustainList st)).
  set (e := entry (matrixRow st)
              (fun j => envelopeInverseMap (aget (sustainList st) j))).
  rewrite (push_loop_flat (fun i => e (n - i - 1)%nat)). simpl.
  rewrite <- (mirror_indices n) at 2.
  rewrite flat_map_concat_map, flat_map_concat_map, map_map. reflexivity.
Qed.

Lemma trueReverse_stages (valueList : array) (st : state) :
  stages (sustainOut (trueReverse valueList st))
  = map envelopeInverseMap (sustainList st).
Proof.
  rewrite trueReverse_sustainOut, stages_entries.
  rewrite <- (map_map (aget (sustainList st)) envelopeInverseMap).
  rewrite tabulate_aget. reflexivity.
Qed.

(** ** inverse *)

Section Inverse.

(** A loop that pushes one element per round: every element is the value
    the body computed from the elements before it. *)
Lemma push_loop (g : array -> nat -> value) (lo : nat) (a0 : array) (n : nat) :
  let r := fold_left (fun ul i => push ul (g ul i)) (seq lo n) a0 in
  length r = (length a0 + n)%nat /\
  firstn (length a0) r = a0 /\
  forall j, (j < n)%nat ->
    aget r (length a0 + j) = g (firstn (length a0 + j) r) (lo + j)%nat.
Proof.
  induction n as [|n IH]; cbv zeta.
  - simpl. repeat split; [lia|apply firstn_all|intros; lia].
  - cbv zeta in IH. rewrite seq_S, fold_left_app. simpl fold_left.
    set (r := fold_left (fun ul i => push ul (g ul i)) (seq lo n) a0) in *.
    destruct IH as (Hlen & Hpre & Hnth). unfold push.
    split; [rewrite length_app; simpl; lia|].
    split.
    + rewrite firstn_app.
      replace (length a0 - length r)%nat with O by lia.
      simpl. rewrite app_nil_r. assumption.
    + intros j Hj. unfold aget in *.
      destruct (Nat.eq_dec j n) as [->|Hne].
      * rewrite <- Hlen.
        rewrite app_nth2, Nat.sub_diag by lia. simpl.
        rewrite firstn_app, Nat.sub_diag, firstn_all. simpl.
        rewrite app_nil_r. reflexivity.
      * rewrite app_nth1 by lia.
        rewrite firstn_app.
        replace (length a0 + j - length r)%nat with O by lia.
        simpl. rewrite app_nil_r. apply Hnth. lia.
Qed.

Lemma aget_firstn (a : array) (k i : nat) :
  (i < k)%nat -> aget (firstn k a) i = aget a i.
Proof.
  intros H. unfold aget.
  rewrite <- (firstn_skipn k a) at 2.
  destruct (Nat.lt_ge_cases i (length (firstn k a))) as [Hlt|Hge].
  - rewrite app_nth1 by assumption. reflexivity.
  - rewrite length_firstn in Hge.
    assert (Hk : (length a <= i)%nat) by lia.
    rewrite firstn_all2 by lia. rewrite skipn_all2 by lia.
    rewrite app_nil_r. reflexivity.
Qed.

Lemma inverse_updated_push (range : Z) (valueList dl : array) :
  inverse_updated range valueList dl
  = fold_left (fun ul i => push ul (updated_at range valueList dl ul i))
      (seq 1 (length dl - 1)) [aget valueList 0].
Proof.
  unfold inverse_updated, for_up. apply fold_left_ext_in.
  intros ul i _. unfold updated_at.
  destruct (js_eq_num (aget valueList i) (-1)); reflexivity.
Qed.

Lemma inverse_updated_length (range : Z) (valueList dl : array) :
  length (inverse_updated range valueList dl) = S (length dl - 1).
Proof.
  rewrite inverse_updated_push.
  destruct (push_loop (updated_at range valueList dl) 1
              [aget valueList 0] (length dl - 1)) as (Hlen & _).
  exact Hlen.
Qed.

Lemma inverse_updated_first (range : Z) (valueList dl : array) :
  aget (inverse_updated range valueList dl) 0 = aget valueList 0.
Proof.
  rewrite inverse_updated_push.
  destruct (push_loop (updated_at range valueList dl) 1
              [aget valueList 0] (length dl - 1)) as (_ & Hpre & _).
  simpl length in Hpre.
  set (r := fold_left _ _ _) in *.
  destruct r as [|x r]; simpl in Hpre; [discriminate|].
  injection Hpre as ->. reflexivity.
Qed.

(** Every later element of [updatedList] is computed from the element of
    [updatedList] before it and the distance at its own index. *)
Lemma inverse_updated_at (range : Z) (valueList dl : array) (i : nat) :
  (S i < length dl)%nat ->
  let ul := inverse_updated range valueList dl in
  aget ul (S i) =
    if js_eq_num (aget valueList (S i)) (-1) then Num (-1)
    else js_rem (js_add (aget ul i) (aget dl (S i))) (Num range).
Proof.
  intros Hi. simpl. rewrite inverse_updated_push.
  destruct (push_loop (updated_at range valueList dl) 1
              [aget valueList 0] (length dl - 1)) as (_ & _ & Hnth).
  set (r := fold_left _ _ _) in *.
  specialize (Hnth i ltac:(lia)). simpl length in Hnth.
  change (1 + i)%nat with (S i) in Hnth. rewrite Hnth.
  unfold updated_at.
  replace (S i - 1)%nat with i by lia.
  rewrite aget_firstn by lia. reflexivity.
Qed.

Lemma distances_fold (l : array) :
  forall (dl : array) (prev : value),
    fst (fold_left
           (fun '(dl, prev) curr =>
              if js_eq_num curr (-1) then (push dl (Num 0), prev)
              else (push dl (js_sub prev curr), curr))
           l (dl, prev))
    = dl ++ distances prev l.
Proof.
  induction l as [|curr l IH]; intros dl prev; simpl.
  - rewrite app_nil_r. reflexivity.
  - destruct (js_eq_num curr (-1)); rewrite IH; unfold push;
      rewrite <- app_assoc; reflexivity.
Qed.

Lemma inverse_distances_cons (v : value) (l : array) :
  fst (inverse_distances (v :: l)) = Num 0 :: distances v l.
Proof.
  unfold inverse_distances, for_up.
  simpl length. rewrite Nat.sub_succ, Nat.sub_0_r.
  rewrite <- seq_shift, fold_left_over_map.
  change (Num 0 :: distances v l) with ([Num 0] ++ distances v l).
  rewrite <- (distances_fold l [Num 0] v). f_equal.
  rewrite <- (fold_seq_nth _ Undefined l).
  apply fold_left_ext_in. intros [dl prev] i _. reflexivity.
Qed.

Lemma distances_length (l : array) :
  forall prev, length (distances prev l) = length l.
Proof.
  induction l as [|c l IH]; intros prev; simpl; [reflexivity|].
  destruct (js_eq_num c (-1)); simpl; rewrite IH; reflexivity.
Qed.

Lemma inverse_distances_length (valueList : array) :
  length (fst (inverse_distances valueList)) = S (length valueList - 1).
Proof.
  destruct valueList as [|v l]; [reflexivity|].
  rewrite inverse_distances_cons. simpl.
  rewrite distances_length. lia.
Qed.

(** [valueOut] is a copy of [updatedList], also when the value list is
    empty and the copy loop grows the empty [valueOut] by one hole. *)
Lemma inverse_valueOut (valueList : array) (st : state) :
  valueOut (snd (inverse valueList st)) = fst (inverse valueList st).
Proof.
  unfold inverse. simpl.
  destruct valueList as [|v l]; [reflexivity|].
  set (ul := inverse_updated _ _ _).
  assert (Hlen : length ul = length (v :: l)).
  { unfold ul. rewrite inverse_updated_length, inverse_distances_length.
    simpl. lia. }
  rewrite <- Hlen. apply copy_loop.
Qed.

End Inverse.

(** ** noteReverse *)

Section NoteReverse.

Lemma fill_rests (r : Z) (n : nat) :
  for_up 0 (length (new_Array n)) (fun vo i => aset vo i (Num r)) (new_Array n)
  = repeat (Num r) n.
Proof.
  unfold for_up, new_Array at 1. rewrite repeat_length, Nat.sub_0_r.
  rewrite fill_tabulate with (f := fun _ => Num r).
  - rewrite map_const, length_seq. reflexivity.
  - intros i. rewrite in_seq. lia.
Qed.

Lemma collect_fold (l : array) :
  forall lo en ei,
    fold_left collect_step (combine (seq lo (length l)) l) (en, ei)
    = (en ++ filter enabled l, ei ++ positions lo l).
Proof.
  induction l as [|note l IH]; intros lo en ei; simpl.
  - rewrite !app_nil_r. reflexivity.
  - unfold enabled. destruct (js_ge_num note 0); rewrite IH; unfold push;
      rewrite <- ?app_assoc; reflexivity.
Qed.

Lemma collect_loop (valueList : array) :
  for_up 0 (length valueList)
    (fun '(en, ei) i =>
       let note := aget valueList i in
       if js_ge_num note 0 then (push en note, push ei i) else (en, ei))
    ([], [])
  = (filter enabled valueList, positions 0 valueList).
Proof.
  unfold for_up. rewrite Nat.sub_0_r.
  change (filter enabled valueList, positions 0 valueList)
    with ([] ++ filter enabled valueList, [] ++ positions 0 valueList).
  rewrite <- (collect_fold valueList 0 [] []).
  set (L := combine (seq 0 (length valueList)) valueList).
  assert (HL : length L = length valueList).
  { unfold L. rewrite length_combine, length_seq. lia. }
  rewrite <- (fold_seq_nth collect_step (O, Undefined) L), HL.
  apply fold_left_ext_in. intros [en ei] i Hi. apply in_seq in Hi.
  unfold L. rewrite combine_nth by (rewrite length_seq; reflexivity).
  rewrite seq_nth by lia. reflexivity.
Qed.

Lemma write_loop (en : array) (idx : list nat) (vo : array) :
  length idx = length en ->
  for_up 0 (length en)
    (fun vo i =>
       let note := aget en i in
       let idx := nth i idx 0%nat in
       aset vo idx note) vo
  = fold_left write_step (combine idx en) vo.
Proof.
  intros Hlen. unfold for_up. rewrite Nat.sub_0_r.
  assert (HL : length (combine idx en) = length en).
  { rewrite length_combine. lia. }
  rewrite <- (fold_seq_nth write_step (O, Undefined) (combine idx en)), HL.
  apply fold_left_ext_in. intros vo' i _.
  rewrite combine_nth by assumption. reflexivity.
Qed.

Lemma aset_app (a b : array) (i : nat) (v : value) :
  (i < length a)%nat -> aset (a ++ b) i v = aset a i v ++ b.
Proof.
  intros Hi. unfold aset. rewrite length_app.
  destruct (Nat.ltb_spec i (length a + length b)) as [_|]; [|lia].
  destruct (Nat.ltb_spec i (length a)) as [_|]; [|lia].
  rewrite firstn_app, skipn_app.
  replace (i - length a)%nat with O by lia.
  replace (S i - length a)%nat with O by lia.
  simpl. rewrite app_nil_r, <- app_assoc. reflexivity.
Qed.

Lemma aset_last (a : array) (x v : value) :
  aset (a ++ [x]) (length a) v = a ++ [v].
Proof.
  unfold aset. rewrite length_app. simpl length.
  destruct (Nat.ltb_spec (length a) (length a + 1)) as [_|]; [|lia].
  rewrite firstn_app, Nat.sub_diag, firstn_all. simpl firstn.
  rewrite app_nil_r.
  rewrite skipn_all2 by (rewrite length_app; simpl; lia). reflexivity.
Qed.

Lemma writes_app (ws : list (nat * value)) (b : array) :
  forall a : array,
    Forall (fun e => (fst e < length a)%nat) ws ->
    fold_left write_step ws (a ++ b) = fold_left write_step ws a ++ b.
Proof.
  induction ws as [|[p v] ws IH]; intros a Hall; simpl; [reflexivity|].
  inversion Hall as [|? ? Hp Hrest]; subst. simpl in Hp.
  unfold write_step at 2 4. simpl. rewrite aset_app by assumption.
  apply IH. rewrite aset_length by assumption. assumption.
Qed.

Lemma positions_app (l1 l2 : array) :
  forall lo,
    positions lo (l1 ++ l2)
    = positions lo l1 ++ positions (lo + length l1) l2.
Proof.
  induction l1 as [|x l1 IH]; intros lo; simpl.
  - rewrite Nat.add_0_r. reflexivity.
  - rewrite IH, Nat.add_succ_r. destruct (enabled x); reflexivity.
Qed.

Lemma positions_bound (l : array) :
  forall lo p, In p (positions lo l) -> (lo <= p < lo + length l)%nat.
Proof.
  induction l as [|x l IH]; intros lo p Hin; simpl in *; [contradiction|].
  destruct (enabled x).
  - destruct Hin as [<-|Hin]; [lia|]. apply IH in Hin. lia.
  - apply IH in Hin. lia.
Qed.

Lemma positions_length (l : array) :
  forall lo, length (positions lo l) = length (filter enabled l).
Proof.
  induction l as [|x l IH]; intros lo; simpl; [reflexivity|].
  destruct (enabled x); simpl; rewrite IH; reflexivity.
Qed.

Lemma refill_snoc_rest (r : Z) (x : value) (l : array) :
  enabled x = false ->
  forall ns, refill r (l ++ [x]) ns = refill r l ns ++ [Num r].
Proof.
  intros Hx. induction l as [|y l IH]; intros ns; simpl.
  - rewrite Hx. reflexivity.
  - destruct (enabled y); [destruct ns|]; rewrite IH; reflexivity.
Qed.

Lemma refill_snoc_note (r : Z) (x v : value) (l : array) :
  enabled x = true ->
  forall ns,
    length ns = length (filter enabled l) ->
    refill r (l ++ [x]) (ns ++ [v]) = refill r l ns ++ [v].
Proof.
  intros Hx. induction l as [|y l IH]; intros ns Hlen; simpl in *.
  - rewrite Hx. destruct ns; [reflexivity|discriminate].
  - destruct (enabled y).
    + destruct ns as [|n ns]; simpl in *; [discriminate|].
      rewrite IH by lia. reflexivity.
    + rewrite IH by assumption. reflexivity.
Qed.

(** Writing the notes [vals] at the enabled positions taken from the last
    to the first refills the enabled slots with [vals] read backwards. *)
Lemma write_refill (r : Z) (l : array) :
  forall vals : array,
    length vals = length (positions 0 l) ->
    fold_left write_step (combine (rev (positions 0 l)) vals)
      (repeat (Num r) (length l))
    = refill r l (rev vals).
Proof.
  induction l as [|x l IH] using rev_ind; intros vals Hlen.
  - simpl in *. destruct vals; [reflexivity|discriminate].
  - rewrite positions_app in *. rewrite length_app, repeat_app.
    simpl length. simpl repeat. simpl positions in *.
    assert (Hws : forall vs : array,
               Forall (fun e => (fst e < length (repeat (Num r) (length l)))%nat)
                 (combine (rev (positions 0 l)) vs)).
    { intros vs. apply Forall_forall. intros [p v] Hin. simpl.
      apply in_combine_l, in_rev, positions_bound in Hin.
      rewrite repeat_length. lia. }
    destruct (enabled x) eqn:Hx.
    + rewrite rev_app_distr. simpl rev.
      rewrite length_app in Hlen. simpl in Hlen.
      destruct vals as [|v vals]; simpl in Hlen; [lia|].
      simpl combine. simpl fold_left. unfold write_step at 2. simpl fst. simpl snd.
      rewrite <- (repeat_length (Num r) (length l)) at 2.
      rewrite aset_last, writes_app by apply Hws.
      rewrite IH by lia. simpl rev.
      rewrite refill_snoc_note; [reflexivity|assumption|].
      rewrite length_rev, <- (positions_length l 0). lia.
    + rewrite app_nil_r in *.
      rewrite writes_app by apply Hws.
      rewrite IH by assumption.
      rewrite refill_snoc_rest by assumption. reflexivity.
Qed.

Lemma noteReverse_valueOut (valueList : array) (st : state) :
  valueOut (noteReverse valueList st)
  = refill (restValue st) valueList (rev (filter enabled valueList)).
Proof.
  unfold noteReverse. rewrite collect_loop, fill_rests. simpl.
  rewrite write_loop
    by (rewrite length_rev; apply positions_length).
  rewrite write_refill by (symmetry; apply positions_length).
  reflexivity.
Qed.

End NoteReverse.

Section Refill.

Variable r : Z.
Hypothesis r_negative : r < 0.

Lemma refill_length (l : array) :
  forall ns, length (refill r l ns) = length l.
Proof.
  induction l as [|x l IH]; intros ns; simpl; [reflexivity|].
  destruct (enabled x); [destruct ns|]; simpl; rewrite IH; reflexivity.
Qed.

Lemma rest_not_enabled : enabled (Num r) = false.
Proof. unfold enabled. simpl. apply Z.leb_gt. exact r_negative. Qed.

Lemma refill_notes (l : array) :
  forall ns,
    Forall (fun v => enabled v = true) ns ->
    length ns = length (filter enabled l) ->
    filter enabled (refill r l ns) = ns.
Proof.
  induction l as [|x l IH]; intros ns Hns Hlen; cbn [refill filter] in *.
  - destruct ns; [reflexivity|discriminate].
  - destruct (enabled x) eqn:Hx.
    + destruct ns as [|n ns]; cbn [length filter] in *; [discriminate|].
      inversion Hns as [|? ? Hn Hrest]; subst.
      rewrite Hn, IH by (assumption || lia). reflexivity.
    + cbn [filter]. rewrite rest_not_enabled. apply IH; assumption.
Qed.

Lemma refill_rest_at (l : array) :
  forall ns p,
    Forall (fun v => enabled v = true) ns ->
    length ns = length (filter enabled l) ->
    nth_error (refill r l ns) p = Some (Num r) <->
    exists x, nth_error l p = Some x /\ enabled x = false.
Proof.
  induction l as [|x l IH]; intros ns p Hns Hlen; simpl in *.
  - destruct p; simpl; split; [discriminate| |discriminate|];
      intros (y & Hy & _); discriminate.
  - destruct (enabled x) eqn:Hx.
    + destruct ns as [|n ns]; simpl in *; [discriminate|].
      inversion Hns as [|? ? Hn Hrest]; subst.
      destruct p as [|p]; simpl.
      * split.
        -- intros Heq. injection Heq as ->.
           rewrite rest_not_enabled in Hn. discriminate.
        -- intros (y & Hy & Hny). injection Hy as <-. congruence.
      * apply IH; [assumption|lia].
    + destruct p as [|p]; simpl.
      * split; [intros _; exists x; split; [reflexivity|assumption]|reflexivity].
      * apply IH; assumption.
Qed.

End Refill.

Lemma filter_enabled_all (l : array) :
  Forall (fun v => enabled v = true) (filter enabled l).
Proof. apply Forall_forall. intros v Hv. apply filter_In in Hv. apply Hv. Qed.

(** The enabled notes of the output are the enabled notes of the value
    list read backwards. *)
Lemma noteReverse_notes (valueList : array) (st : state) :
  restValue st < 0 ->
  filter enabled (valueOut (noteReverse valueList st))
  = rev (filter enabled valueList).
Proof.
  intros Hr. rewrite noteReverse_valueOut.
  apply refill_notes; [assumption| |apply length_rev].
  apply Forall_rev, filter_enabled_all.
Qed.

(** The output holds the rest value exactly where the value list holds a
    member that fails the test [note >= 0]. *)
Lemma noteReverse_rests (valueList : array) (st : state) (p : nat) :
  restValue st < 0 ->
  nth_error (valueOut (noteReverse valueList st)) p = Some (Num (restValue st))
  <-> exists x, nth_error valueList p = Some x /\ enabled x = false.
Proof.
  intros Hr. rewrite noteReverse_valueOut.
  apply refill_rest_at; [assumption| |apply length_rev].
  apply Forall_rev, filter_enabled_all.
Qed.

Lemma noteReverse_length (valueList : array) (st : state) :
  length (valueOut (noteReverse valueList st)) = length valueList.
Proof. rewrite noteReverse_valueOut. apply refill_length. Qed.

(** ** Facts about lists of numbers *)

Lemma aget_nums (l : list Z) :
  forall i,
    aget (nums l) i =
      match nth_error l i with Some z => Num z | None => Undefined end.
Proof.
  induction l as [|z l IH]; intros [|i]; simpl; try reflexivity. apply IH.
Qed.

Lemma distances_nums (l : list Z) :
  forall v, exists ds, distances (Num v) (nums l) = nums ds.
Proof.
  induction l as [|c l IH]; intros v; simpl.
  - exists []. reflexivity.
  - destruct (c =? -1).
    + destruct (IH v) as [ds Hds]. exists (0 :: ds). rewrite Hds. reflexivity.
    + destruct (IH c) as [ds Hds]. exists (v - c :: ds). rewrite Hds.
      reflexivity.
Qed.

Lemma nums_length (l : list Z) : length (nums l) = length l.
Proof. apply length_map. Qed.

Lemma inverse_updated_nums (range : Z) (l dz : list Z) (i : nat) :
  range <> 0 ->
  (0 < length l)%nat ->
  (i < length dz)%nat ->
  exists z, aget (inverse_updated range (nums l) (nums dz)) i = Num z.
Proof.
  intros Hrange Hl. induction i as [|i IH]; intros Hi.
  - rewrite inverse_updated_first, aget_nums.
    destruct l as [|v l]; simpl in *; [lia|]. exists v. reflexivity.
  - rewrite inverse_updated_at by (rewrite nums_length; assumption).
    destruct (js_eq_num (aget (nums l) (S i)) (-1)).
    + exists (-1). reflexivity.
    + destruct IH as [u Hu]; [lia|]. rewrite Hu, aget_nums.
      destruct (nth_error dz (S i)) as [d|] eqn:Hd.
      * simpl. destruct (Z.eqb_spec range 0) as [|_]; [contradiction|].
        eexists. reflexivity.
      * apply nth_error_None in Hd. lia.
Qed.

Lemma refill_In (r : Z) (l : array) (v : value) :
  forall ns, In v (refill r l ns) -> v = Num r \/ In v ns.
Proof.
  induction l as [|x l IH]; intros ns Hin; simpl in Hin; [contradiction|].
  destruct (enabled x).
  - destruct ns as [|n ns]; destruct Hin as [<-|Hin].
    + left. reflexivity.
    + apply IH in Hin. assumption.
    + right. left. reflexivity.
    + apply IH in Hin. destruct Hin; [left|right; right]; assumption.
  - destruct Hin as [<-|Hin]; [left; reflexivity|]. apply IH. assumption.
Qed.

(** ** What a transform emits *)

Lemma output_pitch (h : completion) (st : state) :
  pitch_of (mkOutcome h st (output st)) = [valueOut st].
Proof.
  unfold pitch_of, output. simpl.
  destruct (0 <? length (sustainOut st))%nat; reflexivity.
Qed.

Lemma output_sustain (h : completion) (st : state) :
  (0 < length (sustainOut st))%nat ->
  sustain_of (mkOutcome h st (output st)) = [sustainOut st].
Proof.
  intros H. unfold sustain_of, output. simpl.
  destruct (Nat.ltb_spec 0 (length (sustainOut st))); [reflexivity|lia].
Qed.

Lemma output_trueReverse (valueList : array) (st1 st2 : state) :
  sustainList st1 = sustainList st2 ->
  matrixRow st1 = matrixRow st2 ->
  output (trueReverse valueList st1) = output (trueReverse valueList st2).
Proof.
  intros Hs Hm. unfold output.
  rewrite !trueReverse_valueOut, !trueReverse_sustainOut, Hs, Hm.
  reflexivity.
Qed.

(** A list at inlet 1 replaces the stored sustain list and emits nothing. *)
Lemma sustain_list_stored (arguments : array) (st : state) :
  list_ 1 arguments st = mkOutcome Normal (set_sustainList arguments st) [].
Proof. unfold list_. simpl. rewrite grow_loop. reflexivity. Qed.

Lemma no_sustain_run (ms : list message) :
  forallb (fun m => negb (sets_sustain m)) ms = true ->
  forall st, sustainList st = [] -> sustainList (run ms st) = [].
Proof.
  unfold run. induction ms as [|m ms IH]; intros Hms st Hst; simpl in *.
  - assumption.
  - apply andb_prop in Hms. destruct Hms as [Hm Hms].
    apply IH; [assumption|].
    destruct m as [inlet i|inlet arguments]; simpl in *.
    + unfold msg_int.
      destruct (inlet =? 2); [assumption|].
      destruct (inlet =? 3); assumption.
    + unfold list_. destruct (inlet =? 0).
      * rewrite Hst. simpl. assumption.
      * destruct (inlet =? 1); [discriminate|assumption].
Qed.

(** ** The claims *)

(** C1.  In mode 2 with the stored sustain list [attack, sustain, release]
    the sustain output is [0 0 release 1 0 sustain 2 0 attack]: the stages
    come out as [release, sustain, attack], the swap applied to the stored
    order, and not as [attack, sustain, release], which the swap of the
    reversed list would give.  (For every sustain list the stage at
    position [i] is the swap of the stored stage at [i]:
    [trueReverse_stages].) *)
Theorem trueReverse_sustain_keeps_order :
  let st := run [Msg_int 2 2] with_envelope in
  let o := list_ 0 (nums [1; 2; 3]) st in
  emitted o = [(1, nums [0; 0; release; 1; 0; sustain; 2; 0; attack]);
               (0, nums [3; 2; 1])] /\
  stages (sustainOut (final o)) = nums [release; sustain; attack] /\
  stages (sustainOut (final o)) <> nums [attack; sustain; release].
Proof.
  repeat split; try (vm_compute; reflexivity).
  vm_compute. discriminate.
Qed.

(** C2, counterexample.  With [maxPatternRange] 15, [inverse] maps [20] to
    [20] (the first value is copied) and [0, 5] to [0, -5] (the remainder
    of a negative sum is negative): neither output lies in [0, 15). *)
Lemma inverse_range_counterexample :
  ~ in_pattern_range with_envelope
      (valueOut (snd (inverse (nums [20]) with_envelope))) /\
  ~ in_pattern_range with_envelope
      (valueOut (snd (inverse (nums [0; 5]) with_envelope))).
Proof.
  split; intros H.
  - specialize (H 0%nat 20 eq_refl ltac:(lia)). vm_compute in H.
    destruct H as [_ H]. discriminate.
  - specialize (H 1%nat (-5) eq_refl ltac:(lia)). vm_compute in H.
    destruct H as [H _]. apply H. reflexivity.
Qed.

(** C2, amended.  The first output value of [inverse] is the first input
    value, unchanged.  For a positive [maxPatternRange], with the values
    and [maxPatternRange] within [exact_bound], every later output value
    whose input is not a rest lies in [0, maxPatternRange) whenever the
    sum formed at its step, the output before it plus the distance at its
    index, is not negative. *)
Theorem inverse_step_range (st : state) (l : list Z) :
  let st' := snd (inverse (nums l) st) in
  let m := maxPatternRange st in
  aget (valueOut st') 0 = aget (nums l) 0 /\
  forall i x u d,
    0 < m <= exact_bound ->
    Forall exact_int l ->
    nth_error l (S i) = Some x ->
    x <> -1 ->
    aget (valueOut st') i = Num u ->
    aget (distanceList st') (S i) = Num d ->
    0 <= u + d ->
    exists z, aget (valueOut st') (S i) = Num z /\ 0 <= z < m.
Proof.
  intros st' m. subst st'. rewrite inverse_valueOut.
  change (distanceList (snd (inverse (nums l) st)))
    with (fst (inverse_distances (nums l))).
  unfold inverse. cbn [fst]. fold m.
  split; [apply inverse_updated_first|].
  intros i x u d Hm _ Hx Hrest Hu Hd Hsum.
  assert (Hlen : (S i < length l)%nat)
    by (apply nth_error_Some; congruence).
  rewrite inverse_updated_at
    by (rewrite inverse_distances_length, nums_length; lia).
  rewrite Hu, Hd, aget_nums, Hx. cbn [js_eq_num js_add js_rem].
  destruct (Z.eqb_spec x (-1)) as [|_]; [contradiction|].
  destruct (Z.eqb_spec m 0) as [|_]; [lia|].
  exists (Z.rem (u + d) m). split; [reflexivity|].
  apply Z.rem_bound_pos; lia.
Qed.

Lemma inverse_step_range_witness :
  let st' := snd (inverse (nums [5; 3; 7]) with_envelope) in
  let m := maxPatternRange with_envelope in
  0 < m <= exact_bound /\
  Forall exact_int [5; 3; 7] /\
  nth_error [5; 3; 7] 1 = Some 3 /\
  3 <> -1 /\
  aget (valueOut st') 0 = Num 5 /\
  aget (distanceList st') 1 = Num 2 /\
  0 <= 5 + 2 /\
  aget (valueOut st') 0 = aget (nums [5; 3; 7]) 0 /\
  exists z, aget (valueOut st') 1 = Num z /\ 0 <= z < m.
Proof.
  cbv zeta.
  assert (Hm : 0 < maxPatternRange with_envelope <= exact_bound)
    by (vm_compute; split; [reflexivity|discriminate]).
  assert (Hb : Forall exact_int [5; 3; 7])
    by (repeat constructor; vm_compute; discriminate).
  destruct (inverse_step_range with_envelope [5; 3; 7]) as [Hfirst Hstep].
  split; [exact Hm|]. split; [exact Hb|]. split; [reflexivity|].
  split; [lia|]. split; [reflexivity|]. split; [reflexivity|].
  split; [lia|]. split; [exact Hfirst|].
  apply (Hstep 0%nat 3 5 2 Hm Hb); [reflexivity|lia|reflexivity|reflexivity|lia].
Defined.

(** C3.  In mode 3 with [maxPatternRange] 15 the value list
    [5, 3, 7, -1, 2] gives the distances [0, 2, -4, 0, 5] and the pitch
    output [5, 7, 3, -1, 4], not [5, 7, 3, -1, 8]: the second loop of
    [inverse] adds the distance 5, taken from the note 7, to
    [updatedList[i - 1]], which is the rest -1, and not to 3, the output
    of the note 7.  The same step turns the last note of [5, -1, 5] into
    -1. *)
Theorem inverse_example :
  let o := list_ 0 (nums [5; 3; 7; -1; 2]) (run [Msg_int 2 3] with_envelope) in
  maxPatternRange (final o) = 15 /\
  distanceList (final o) = nums [0; 2; -4; 0; 5] /\
  pitch_of o = [nums [5; 7; 3; -1; 4]] /\
  pitch_of o <> [nums [5; 7; 3; -1; 8]] /\
  pitch_of (list_ 0 (nums [5; -1; 5]) (run [Msg_int 2 3] with_envelope))
  = [nums [5; -1; -1]].
Proof.
  repeat split; try (vm_compute; reflexivity).
  vm_compute. discriminate.
Qed.

(** C4, counterexample.  [noteReverse] maps [-5, 3] to [-1, 3]: position 0
    holds the rest value in the output and not in the input, and the
    non-rest value -5 is lost. *)
Lemma noteReverse_negative_counterexample :
  let input := nums [-5; 3] in
  let out := valueOut (noteReverse input with_envelope) in
  out = nums [-1; 3] /\
  ~ (nth_error out 0 = Some (Num (restValue with_envelope)) <->
     nth_error input 0 = Some (Num (restValue with_envelope))) /\
  ~ Permutation (filter (is_note with_envelope) out)
      (filter (is_note with_envelope) input).
Proof.
  split; [vm_compute; reflexivity|]. split.
  - vm_compute. intros [H _]. specialize (H eq_refl). discriminate.
  - vm_compute. intros H. apply Permutation_length in H. discriminate.
Qed.

(** C4, amended.  When the rest value is -1 and no value of the input is
    below -1, the output of [noteReverse] holds the rest value at exactly
    the positions where the input does, and its non-rest values are the
    non-rest values of the input in reverse order, hence a permutation of
    them. *)
Theorem noteReverse_preserves (st : state) (l : list Z) :
  restValue st = -1 ->
  Forall (fun z => -1 <= z) l ->
  let out := valueOut (noteReverse (nums l) st) in
  length out = length l /\
  (forall p,
     nth_error out p = Some (Num (restValue st)) <->
     nth_error (nums l) p = Some (Num (restValue st))) /\
  filter (is_note st) out = rev (filter (is_note st) (nums l)) /\
  Permutation (filter (is_note st) out) (filter (is_note st) (nums l)).
Proof.
  intros Hr Hl out. subst out.
  assert (Hneg : restValue st < 0) by lia.
  assert (Hin : forall v, In v (nums l) -> is_note st v = enabled v).
  { intros v Hv. apply in_map_iff in Hv. destruct Hv as (z & <- & Hz).
    rewrite Forall_forall in Hl. specialize (Hl z Hz).
    unfold is_note, enabled. simpl. rewrite Hr.
    destruct (Z.eqb_spec z (-1)), (Z.leb_spec 0 z); simpl; (reflexivity || lia). }
  assert (Hrev : filter (is_note st) (valueOut (noteReverse (nums l) st))
                 = rev (filter (is_note st) (nums l))).
  { rewrite (filter_ext_in _ _ (nums l) Hin).
    rewrite filter_ext_in with (g := enabled).
    - apply noteReverse_notes. assumption.
    - intros v Hv. rewrite noteReverse_valueOut in Hv.
      apply refill_In in Hv. destruct Hv as [->|Hv].
      + rewrite rest_not_enabled by assumption.
        unfold is_note. simpl. rewrite Z.eqb_refl. reflexivity.
      + apply in_rev, filter_In in Hv. apply Hin, Hv. }
  split; [rewrite noteReverse_length; apply nums_length|]. split.
  - intros p. rewrite noteReverse_rests by assumption. split.
    + intros (x & Hx & Hen). rewrite Hx. f_equal.
      pose proof (Hin x (nth_error_In _ _ Hx)) as Hnote.
      rewrite Hen in Hnote. unfold is_note in Hnote.
      apply negb_false_iff in Hnote.
      destruct x as [z| |]; simpl in Hnote; try discriminate.
      apply Z.eqb_eq in Hnote. congruence.
    + intros Hp. exists (Num (restValue st)). split; [assumption|].
      apply rest_not_enabled. assumption.
  - split; [exact Hrev|].
    rewrite Hrev. apply Permutation_sym, Permutation_rev.
Qed.

Lemma noteReverse_preserves_witness :
  restValue with_envelope = -1 /\
  Forall (fun z => -1 <= z) [4; -1; 7; 0] /\
  let out := valueOut (noteReverse (nums [4; -1; 7; 0]) with_envelope) in
  length out = length [4; -1; 7; 0] /\
  (forall p,
     nth_error out p = Some (Num (restValue with_envelope)) <->
     nth_error (nums [4; -1; 7; 0]) p = Some (Num (restValue with_envelope))) /\
  filter (is_note with_envelope) out
  = rev (filter (is_note with_envelope) (nums [4; -1; 7; 0])) /\
  Permutation (filter (is_note with_envelope) out)
    (filter (is_note with_envelope) (nums [4; -1; 7; 0])).
Proof.
  assert (H : Forall (fun z => -1 <= z) [4; -1; 7; 0])
    by (repeat constructor; lia).
  split; [reflexivity|]. split; [exact H|].
  apply (noteReverse_preserves with_envelope [4; -1; 7; 0]);
    [reflexivity|exact H].
Defined.

(** C5, counterexample.  In mode 3 and in mode 4 a transform of the empty
    value list does not throw, and emits the sustain output and the pitch
    output. *)
Lemma empty_inverse_counterexample :
  let o3 := list_ 0 [] (run [Msg_int 2 3] with_envelope) in
  let o4 := list_ 0 [] (run [Msg_int 2 4] with_envelope) in
  (how o3 = Normal /\
   emitted o3 = [(1, nums [0; 0; attack; 1; 0; sustain; 2; 0; release]);
                 (0, [Undefined])]) /\
  (how o4 = Normal /\
   emitted o4 = [(1, nums [0; 0; release; 1; 0; sustain; 2; 0; attack]);
                 (0, [Undefined])]).
Proof. repeat split; vm_compute; reflexivity. Qed.

(** C5, amended.  Once a sustain list is stored, a transform of the empty
    value list completes normally in every mode and emits a non-empty
    sustain output followed by the pitch output: the empty list in modes
    0, 1 and 2, and a list of length one holding [undefined] in mode 3 and
    in every other mode. *)
Theorem empty_input_completes (st : state) :
  (0 < length (sustainList st))%nat ->
  let o := list_ 0 [] st in
  how o = Normal /\
  sustainOut (final o) <> [] /\
  emitted o =
    [(1, sustainOut (final o));
     (0, if (updateMode st =? 0) || (updateMode st =? 1) || (updateMode st =? 2)
         then [] else [Undefined])].
Proof.
  intros Hlen o. subst o. unfold list_. simpl.
  destruct (Nat.leb_spec (length (sustainList st)) 0) as [|_]; [lia|].
  set (n := length (sustainList st)) in *.
  assert (Hcopy : (0 < length (copy_sustain st))%nat).
  { rewrite copy_sustain_entries, entries_length, length_seq. fold n. lia. }
  assert (Hswap : forall vl st',
             sustainList st' = sustainList st ->
             (0 < length (sustainOut (trueReverse vl st')))%nat).
  { intros vl st' Heq.
    rewrite trueReverse_sustainOut, entries_length, length_seq, Heq.
    fold n. lia. }
  assert (Hout : forall st' : state,
             (0 < length (sustainOut st'))%nat ->
             sustainOut st' <> [] /\
             output st' = [(1, sustainOut st'); (0, valueOut st')]).
  { intros st' H. split.
    - intros E. rewrite E in H. simpl in H. lia.
    - unfold output.
      destruct (Nat.ltb_spec 0 (length (sustainOut st'))); [reflexivity|lia]. }
  split; [reflexivity|]. simpl.
  destruct (updateMode st =? 0); simpl;
    [destruct (Hout (identity [] st) Hcopy) as [H1 H2];
     split; [exact H1|exact H2]|].
  destruct (updateMode st =? 1); simpl;
    [destruct (Hout (noteReverse [] st) Hcopy) as [H1 H2];
     split; [exact H1|exact H2]|].
  destruct (updateMode st =? 2); simpl;
    [destruct (Hout (trueReverse [] st) (Hswap [] st eq_refl)) as [H1 H2];
     split; [exact H1|exact H2]|].
  destruct (updateMode st =? 3); simpl.
  - destruct (Hout (snd (inverse [] st)) Hcopy) as [H1 H2].
    split; [exact H1|exact H2].
  - destruct (Hout (reverseInverse [] st)
                (Hswap [Undefined] (snd (inverse [] st)) eq_refl))
      as [H1 H2].
    split; [exact H1|exact H2].
Qed.

Lemma empty_input_completes_witness :
  (0 < length (sustainList (run [Msg_int 2 3] with_envelope)))%nat /\
  let o := list_ 0 [] (run [Msg_int 2 3] with_envelope) in
  how o = Normal /\
  sustainOut (final o) <> [] /\
  emitted o =
    [(1, sustainOut (final o));
     (0, if (updateMode (run [Msg_int 2 3] with_envelope) =? 0)
            || (updateMode (run [Msg_int 2 3] with_envelope) =? 1)
            || (updateMode (run [Msg_int 2 3] with_envelope) =? 2)
         then [] else [Undefined])].
Proof.
  assert (H : (0 < length (sustainList (run [Msg_int 2 3] with_envelope)))%nat)
    by (vm_compute; lia).
  split; [exact H|].
  apply (empty_input_completes (run [Msg_int 2 3] with_envelope) H).
Defined.

(** C6.  As long as no list has arrived at inlet 1, whatever integers and
    value lists arrived before, a value list at inlet 0 throws "Sustain
    List has not been set" in every mode, emits nothing, and leaves every
    global as it was. *)
Theorem transform_without_sustain (ms : list message) (arguments : array) :
  forallb (fun m => negb (sets_sustain m)) ms = true ->
  let st := run ms init in
  list_ 0 arguments st = mkOutcome MissingEnvelope st [].
Proof.
  intros Hms st.
  assert (Hst : sustainList st = []) by (apply no_sustain_run; trivial).
  unfold list_. simpl. rewrite Hst. reflexivity.
Qed.

Lemma transform_without_sustain_witness :
  forallb (fun m => negb (sets_sustain m))
    [Msg_int 2 3; Msg_list 0 (nums [1; 2]); Msg_int 3 12] = true /\
  let st := run [Msg_int 2 3; Msg_list 0 (nums [1; 2]); Msg_int 3 12] init in
  list_ 0 (nums [5; 3; 7]) st = mkOutcome MissingEnvelope st [].
Proof.
  split; [reflexivity|].
  apply (transform_without_sustain
           [Msg_int 2 3; Msg_list 0 (nums [1; 2]); Msg_int 3 12]
           (nums [5; 3; 7])).
  reflexivity.
Defined.

Lemma mode_set (k : Z) (st : state) : updateMode (set_updateMode k st) = k.
Proof. reflexivity. Qed.

Lemma inverse_mode (k : Z) (valueList : array) (st : state) :
  fst (inverse valueList (set_updateMode k st)) = fst (inverse valueList st).
Proof. reflexivity. Qed.

(** C7.  For every value list (the empty one included) and every stored
    sustain list, one transform in mode 4 completes and emits as does a
    transform in mode 3 followed by a transform, in mode 2, of the pitch
    output of the first. *)
Theorem reverseInverse_is_composition (st : state) (valueList : array) :
  let direct := list_ 0 valueList (msg_int 2 4 st) in
  let first := list_ 0 valueList (msg_int 2 3 st) in
  let second :=
    list_ 0 (valueOut (final first)) (msg_int 2 2 (final first)) in
  how direct = how second /\ emitted direct = emitted second.
Proof.
  unfold list_, msg_int. cbn [Z.eqb Pos.eqb].
  change (sustainList (set_updateMode 4 st)) with (sustainList st).
  change (sustainList (set_updateMode 3 st)) with (sustainList st).
  rewrite !mode_set. cbn [Z.eqb Pos.eqb].
  destruct (length (sustainList st) <=? 0)%nat eqn:Hlen;
    cbn [final how emitted].
  - change (sustainList (set_updateMode 2 (set_updateMode 3 st)))
      with (sustainList st).
    rewrite Hlen. split; reflexivity.
  - change (sustainList
              (set_updateMode 2 (snd (inverse valueList (set_updateMode 3 st)))))
      with (sustainList st).
    rewrite Hlen. cbn [how emitted]. split; [reflexivity|].
    rewrite inverse_valueOut, inverse_mode.
    unfold reverseInverse.
    rewrite (surjective_pairing (inverse valueList (set_updateMode 4 st))).
    rewrite inverse_mode.
    apply output_trueReverse; reflexivity.
Qed.

(** C8.  The value list of [trueReverse] of the value list of
    [trueReverse] is the list one started from, whatever the globals of
    the two calls; and the swap table sends each of the four sustain codes
    back to itself when applied twice. *)
Theorem trueReverse_involution (st st' : state) (valueList : array) :
  valueOut (trueReverse (valueOut (trueReverse valueList st)) st') = valueList
  /\ Forall (fun s => envelopeInverseMap (envelopeInverseMap (Num s)) = Num s)
       [full; attack; sustain; release].
Proof.
  split.
  - rewrite !trueReverse_valueOut. apply rev_involutive.
  - repeat constructor.
Qed.

Section ScaleLength.

Variable i : Z.
Variable valueList : array.

Lemma identity_scaleLength (st : state) :
  identity valueList (set_scaleLength i st)
  = set_scaleLength i (identity valueList st).
Proof. reflexivity. Qed.

Lemma noteReverse_scaleLength (st : state) :
  noteReverse valueList (set_scaleLength i st)
  = set_scaleLength i (noteReverse valueList st).
Proof.
  unfold noteReverse.
  destruct (for_up 0 (length valueList) _ _) as [en ei]. reflexivity.
Qed.

Lemma trueReverse_scaleLength (st : state) :
  trueReverse valueList (set_scaleLength i st)
  = set_scaleLength i (trueReverse valueList st).
Proof. reflexivity. Qed.

Lemma inverse_scaleLength (st : state) :
  inverse valueList (set_scaleLength i st)
  = (fst (inverse valueList st), set_scaleLength i (snd (inverse valueList st))).
Proof. reflexivity. Qed.

Lemma reverseInverse_scaleLength (st : state) :
  reverseInverse valueList (set_scaleLength i st)
  = set_scaleLength i (reverseInverse valueList st).
Proof. reflexivity. Qed.

End ScaleLength.

(** C9.  An integer at inlet 3 changes [scaleLength] and nothing a
    transform reads: with and without it, a value list at inlet 0
    completes alike, emits the same lists, and leaves the same globals up
    to [scaleLength]. *)
Theorem scaleLength_is_not_read (st : state) (i : Z) (arguments : array) :
  let a := list_ 0 arguments st in
  let b := list_ 0 arguments (msg_int 3 i st) in
  how b = how a /\
  emitted b = emitted a /\
  final b = set_scaleLength i (final a).
Proof.
  unfold list_, msg_int. cbn [Z.eqb Pos.eqb].
  change (sustainList (set_scaleLength i st)) with (sustainList st).
  change (updateMode (set_scaleLength i st)) with (updateMode st).
  destruct (length (sustainList st) <=? 0)%nat; cbn [how final emitted];
    [repeat split; reflexivity|].
  rewrite identity_scaleLength, noteReverse_scaleLength,
    trueReverse_scaleLength, inverse_scaleLength, reverseInverse_scaleLength.
  cbn [snd].
  destruct (updateMode st =? 0); [repeat split; reflexivity|].
  destruct (updateMode st =? 1); [repeat split; reflexivity|].
  destruct (updateMode st =? 2); [repeat split; reflexivity|].
  destruct (updateMode st =? 3); repeat split; reflexivity.
Qed.

(** C10.  Once a sustain list is stored, a transform completes normally
    for every integer set as update mode, and for every integer other than
    0, 1, 2 and 3 it is the run of [reverseInverse] followed by
    [output]. *)
Theorem dispatch_falls_through (st : state) (m : Z) (arguments : array) :
  (0 < length (sustainList st))%nat ->
  m <> 0 -> m <> 1 -> m <> 2 -> m <> 3 ->
  let st' := msg_int 2 m st in
  list_ 0 arguments st'
  = mkOutcome Normal (reverseInverse arguments st')
      (output (reverseInverse arguments st')) /\
  forall k : Z, how (list_ 0 arguments (msg_int 2 k st)) = Normal.
Proof.
  intros Hlen H0 H1 H2 H3 st'. subst st'. unfold list_, msg_int. simpl.
  destruct (Nat.leb_spec (length (sustainList st)) 0) as [|_]; [lia|].
  split; [|reflexivity].
  destruct (Z.eqb_spec m 0); [contradiction|].
  destruct (Z.eqb_spec m 1); [contradiction|].
  destruct (Z.eqb_spec m 2); [contradiction|].
  destruct (Z.eqb_spec m 3); [contradiction|].
  reflexivity.
Qed.

Lemma dispatch_falls_through_witness :
  (0 < length (sustainList with_envelope))%nat /\
  -7 <> 0 /\ -7 <> 1 /\ -7 <> 2 /\ -7 <> 3 /\
  let st' := msg_int 2 (-7) with_envelope in
  list_ 0 (nums [5; 3; 7]) st'
  = mkOutcome Normal (reverseInverse (nums [5; 3; 7]) st')
      (output (reverseInverse (nums [5; 3; 7]) st')) /\
  forall k : Z, how (list_ 0 (nums [5; 3; 7]) (msg_int 2 k with_envelope)) = Normal.
Proof.
  assert (H : (0 < length (sustainList with_envelope))%nat)
    by (vm_compute; lia).
  split; [exact H|]. repeat (split; [lia|]).
  apply (dispatch_falls_through with_envelope (-7) (nums [5; 3; 7]) H); lia.
Defined.

(** * Further properties of the script *)

(** ** The shape of a transform *)

Lemma list_modify (valueList : array) (st : state) :
  (0 < length (sustainList st))%nat ->
  list_ 0 valueList st
  = mkOutcome Normal (modify valueList st) (output (modify valueList st)).
Proof.
  intros H. unfold list_, modify. simpl.
  destruct (Nat.leb_spec (length (sustainList st)) 0) as [|_]; [lia|].
  reflexivity.
Qed.

Lemma noteReverse_sustainOut (valueList : array) (st : state) :
  sustainOut (noteReverse valueList st) = copy_sustain st.
Proof. unfold noteReverse. rewrite collect_loop. reflexivity. Qed.

Lemma modify_sustainOut (valueList : array) (st : state) :
  sustainOut (modify valueList st)
  = flat_map
      (entry (matrixRow st)
         (fun j => stage_of_mode (updateMode st) (aget (sustainList st) j)))
      (seq 0 (length (sustainList st))).
Proof.
  unfold modify, stage_of_mode.
  destruct (Z.eqb_spec (updateMode st) 0) as [E0|E0];
    [exact (copy_sustain_entries st)|].
  destruct (Z.eqb_spec (updateMode st) 1) as [E1|E1];
    [rewrite noteReverse_sustainOut; exact (copy_sustain_entries st)|].
  destruct (Z.eqb_spec (updateMode st) 2) as [E2|E2].
  - rewrite E2. exact (trueReverse_sustainOut valueList st).
  - destruct (Z.eqb_spec (updateMode st) 3) as [E3|E3].
    + exact (copy_sustain_entries st).
    + unfold reverseInverse.
      rewrite (surjective_pairing (inverse valueList st)).
      rewrite trueReverse_sustainOut. reflexivity.
Qed.

Lemma output_two (st : state) :
  (0 < length (sustainOut st))%nat ->
  output st = [(1, sustainOut st); (0, valueOut st)].
Proof.
  intros H. unfold output.
  destruct (Nat.ltb_spec 0 (length (sustainOut st))); [reflexivity|lia].
Qed.

Lemma modify_sustainOut_length (valueList : array) (st : state) :
  length (sustainOut (modify valueList st))
  = (3 * length (sustainList st))%nat.
Proof. rewrite modify_sustainOut, entries_length, length_seq. reflexivity. Qed.

Lemma inverse_length (valueList : array) (st : state) :
  length (fst (inverse valueList st)) = S (length valueList - 1).
Proof.
  unfold inverse. simpl.
  rewrite inverse_updated_length, inverse_distances_length. lia.
Qed.

Lemma reverseInverse_valueOut (valueList : array) (st : state) :
  valueOut (reverseInverse valueList st) = rev (fst (inverse valueList st)).
Proof.
  unfold reverseInverse.
  rewrite (surjective_pairing (inverse valueList st)).
  apply trueReverse_valueOut.
Qed.

(** X1.  In mode 0, once a sustain list is stored, a value list at inlet 0
    emits two lists: at outlet 1 the triple [i, matrixRow, sustainList[i]]
    for every index in ascending order, then at outlet 0 the value list
    unchanged. *)
Theorem identity_transform (st : state) (valueList : array) :
  (0 < length (sustainList st))%nat ->
  updateMode st = 0 ->
  emitted (list_ 0 valueList st)
  = [(1, flat_map (entry (matrixRow st) (aget (sustainList st)))
           (seq 0 (length (sustainList st))));
     (0, valueList)].
Proof.
  intros Hlen Hmode. rewrite list_modify by assumption. cbn [emitted].
  rewrite output_two by (rewrite modify_sustainOut_length; lia).
  unfold modify. rewrite Hmode. cbn [Z.eqb Pos.eqb].
  rewrite identity_valueOut.
  change (sustainOut (identity valueList st)) with (copy_sustain st).
  rewrite copy_sustain_entries. reflexivity.
Qed.

Lemma identity_transform_witness :
  (0 < length (sustainList with_envelope))%nat /\
  updateMode with_envelope = 0 /\
  emitted (list_ 0 (nums [4; -1; 7]) with_envelope)
  = [(1, flat_map
           (entry (matrixRow with_envelope) (aget (sustainList with_envelope)))
           (seq 0 (length (sustainList with_envelope))));
     (0, nums [4; -1; 7])].
Proof.
  assert (H : (0 < length (sustainList with_envelope))%nat)
    by (vm_compute; lia).
  split; [exact H|]. split; [reflexivity|].
  apply (identity_transform with_envelope (nums [4; -1; 7]) H).
  reflexivity.
Defined.

(** X2.  In mode 2, once a sustain list is stored, a value list at inlet 0
    emits at outlet 1 the triple [i, matrixRow, swap of sustainList[i]] for
    every index in ascending order, then at outlet 0 the value list
    reversed, rests included. *)
Theorem trueReverse_transform (st : state) (valueList : array) :
  (0 < length (sustainList st))%nat ->
  updateMode st = 2 ->
  emitted (list_ 0 valueList st)
  = [(1, flat_map
           (entry (matrixRow st)
              (fun j => envelopeInverseMap (aget (sustainList st) j)))
           (seq 0 (length (sustainList st))));
     (0, rev valueList)].
Proof.
  intros Hlen Hmode. rewrite list_modify by assumption. cbn [emitted].
  rewrite output_two by (rewrite modify_sustainOut_length; lia).
  unfold modify. rewrite Hmode. cbn [Z.eqb Pos.eqb].
  rewrite trueReverse_valueOut, trueReverse_sustainOut. reflexivity.
Qed.

Lemma trueReverse_transform_witness :
  (0 < length (sustainList (run [Msg_int 2 2] with_envelope)))%nat /\
  updateMode (run [Msg_int 2 2] with_envelope) = 2 /\
  emitted (list_ 0 (nums [4; -1; 7]) (run [Msg_int 2 2] with_envelope))
  = [(1, flat_map
           (entry (matrixRow (run [Msg_int 2 2] with_envelope))
              (fun j =>
                 envelopeInverseMap
                   (aget (sustainList (run [Msg_int 2 2] with_envelope)) j)))
           (seq 0 (length (sustainList (run [Msg_int 2 2] with_envelope)))));
     (0, rev (nums [4; -1; 7]))].
Proof.
  assert (H : (0 < length (sustainList (run [Msg_int 2 2] with_envelope)))%nat)
    by (vm_compute; lia).
  split; [exact H|]. split; [reflexivity|].
  apply (trueReverse_transform (run [Msg_int 2 2] with_envelope)
           (nums [4; -1; 7]) H).
  reflexivity.
Defined.

(** X3.  In every mode a transform that does not throw emits exactly two
    lists, outlet 1 before outlet 0: the test [sustainOut.length > 0] of
    [output] never suppresses the sustain output.  The sustain output has
    three members per stored sustain code, [i, matrixRow, stage], in
    ascending [i]; the stage is the stored code in modes 0, 1 and 3 and
    its swap in every other mode, and does not depend on the value list. *)
Theorem transform_shape (st : state) (valueList : array) :
  (0 < length (sustainList st))%nat ->
  let o := list_ 0 valueList st in
  emitted o
  = [(1, flat_map
           (entry (matrixRow st)
              (fun j => stage_of_mode (updateMode st) (aget (sustainList st) j)))
           (seq 0 (length (sustainList st))));
     (0, valueOut (final o))] /\
  length (sustainOut (final o)) = (3 * length (sustainList st))%nat.
Proof.
  intros Hlen o. subst o. rewrite list_modify by assumption. cbn [emitted final].
  rewrite output_two by (rewrite modify_sustainOut_length; lia).
  rewrite modify_sustainOut_length, modify_sustainOut. split; reflexivity.
Qed.

Lemma transform_shape_witness :
  (0 < length (sustainList (run [Msg_int 2 3] with_envelope)))%nat /\
  let st := run [Msg_int 2 3] with_envelope in
  let o := list_ 0 (nums [5; 3; 7]) st in
  emitted o
  = [(1, flat_map
           (entry (matrixRow st)
              (fun j => stage_of_mode (updateMode st) (aget (sustainList st) j)))
           (seq 0 (length (sustainList st))));
     (0, valueOut (final o))] /\
  length (sustainOut (final o)) = (3 * length (sustainList st))%nat.
Proof.
  assert (H : (0 < length (sustainList (run [Msg_int 2 3] with_envelope)))%nat)
    by (vm_compute; lia).
  split; [exact H|].
  apply (transform_shape (run [Msg_int 2 3] with_envelope) (nums [5; 3; 7]) H).
Defined.

(** X4.  In every mode the pitch output of a non-empty value list has the
    length of the value list. *)
Theorem pitch_output_length (st : state) (valueList : array) :
  (0 < length (sustainList st))%nat ->
  (0 < length valueList)%nat ->
  exists po,
    pitch_of (list_ 0 valueList st) = [po] /\ length po = length valueList.
Proof.
  intros Hlen Hvl. rewrite list_modify by assumption.
  exists (valueOut (modify valueList st)).
  split; [apply output_pitch|].
  unfold modify.
  destruct (updateMode st =? 0); [rewrite identity_valueOut; reflexivity|].
  destruct (updateMode st =? 1); [apply noteReverse_length|].
  destruct (updateMode st =? 2);
    [rewrite trueReverse_valueOut; apply length_rev|].
  destruct (updateMode st =? 3).
  - rewrite inverse_valueOut, inverse_length. lia.
  - rewrite reverseInverse_valueOut, length_rev, inverse_length. lia.
Qed.

Lemma pitch_output_length_witness :
  (0 < length (sustainList (run [Msg_int 2 9] with_envelope)))%nat /\
  (0 < length (nums [5; -1; 7]%Z))%nat /\
  exists po,
    pitch_of (list_ 0 (nums [5; -1; 7]) (run [Msg_int 2 9] with_envelope))
    = [po] /\
    length po = length (nums [5; -1; 7]).
Proof.
  assert (H : (0 < length (sustainList (run [Msg_int 2 9] with_envelope)))%nat)
    by (vm_compute; lia).
  assert (H' : (0 < length (nums [5; -1; 7]%Z))%nat) by (vm_compute; lia).
  split; [exact H|]. split; [exact H'|].
  apply (pitch_output_length (run [Msg_int 2 9] with_envelope)
           (nums [5; -1; 7]) H H').
Defined.

(** ** More on noteReverse *)

Section RefillMore.

Variable r : Z.

Lemma refill_all (l : array) :
  Forall (fun v => enabled v = true) l ->
  forall ns, length ns = length l -> refill r l ns = ns.
Proof.
  induction l as [|x l IH]; intros Hall ns Hlen; simpl in *.
  - destruct ns; [reflexivity|discriminate].
  - inversion Hall as [|? ? Hx Hrest]; subst. rewrite Hx.
    destruct ns as [|n ns]; simpl in *; [discriminate|].
    rewrite IH by (assumption || lia). reflexivity.
Qed.

Lemma refill_rev (l : array) :
  forall ns,
    length ns = length (filter enabled l) ->
    rev (refill r l ns) = refill r (rev l) (rev ns).
Proof.
  induction l as [|x l IH]; intros ns Hlen; cbn [refill filter rev] in *.
  - reflexivity.
  - destruct (enabled x) eqn:Hx.
    + destruct ns as [|n ns]; cbn [length rev] in *; [discriminate|].
      rewrite IH by lia.
      rewrite refill_snoc_note; [reflexivity|assumption|].
      rewrite length_rev, filter_rev, length_rev. lia.
    + cbn [rev]. rewrite IH by assumption.
      rewrite refill_snoc_rest by assumption. reflexivity.
Qed.

Lemma refill_pattern (l1 : array) :
  forall l2 ns,
    map enabled l1 = map enabled l2 -> refill r l1 ns = refill r l2 ns.
Proof.
  induction l1 as [|x l1 IH]; intros [|y l2] ns Hmap; simpl in *;
    try discriminate; [reflexivity|].
  injection Hmap as Hxy Hmap. rewrite Hxy.
  destruct (enabled y); [destruct ns|]; f_equal; apply IH; assumption.
Qed.

Lemma refill_self (l : array) :
  refill r l (filter enabled l) = rests_normalized r l.
Proof.
  unfold rests_normalized.
  induction l as [|x l IH]; cbn [refill filter map]; [reflexivity|].
  destruct (enabled x); rewrite IH; reflexivity.
Qed.

Hypothesis r_negative : r < 0.

Lemma refill_enabled (l : array) :
  forall ns,
    Forall (fun v => enabled v = true) ns ->
    length ns = length (filter enabled l) ->
    map enabled (refill r l ns) = map enabled l.
Proof.
  induction l as [|x l IH]; intros ns Hns Hlen; cbn [refill filter map] in *.
  - reflexivity.
  - destruct (enabled x) eqn:Hx.
    + destruct ns as [|n ns]; cbn [length map] in *; [discriminate|].
      inversion Hns as [|? ? Hn Hrest]; subst.
      rewrite Hn, IH by (assumption || lia). reflexivity.
    + cbn [map]. rewrite (rest_not_enabled r r_negative).
      rewrite IH by assumption. reflexivity.
Qed.

End RefillMore.

(** Two runs of [noteReverse] put every enabled note back in its place and
    leave the rest value wherever the test [note >= 0] failed. *)
Lemma noteReverse_twice (st st' : state) (valueList : array) :
  restValue st < 0 ->
  restValue st' = restValue st ->
  valueOut (noteReverse (valueOut (noteReverse valueList st)) st')
  = rests_normalized (restValue st) valueList.
Proof.
  intros Hr Hr'.
  assert (Hall : Forall (fun v => enabled v = true)
                   (rev (filter enabled valueList)))
    by apply Forall_rev, filter_enabled_all.
  rewrite (noteReverse_valueOut _ st'), Hr'.
  rewrite noteReverse_notes by assumption. rewrite rev_involutive.
  rewrite noteReverse_valueOut.
  rewrite refill_pattern with (l2 := valueList).
  - apply refill_self.
  - apply refill_enabled; [assumption|assumption|apply length_rev].
Qed.

Lemma rests_normalized_nums (l : list Z) :
  Forall (fun z => -1 <= z) l -> rests_normalized (-1) (nums l) = nums l.
Proof.
  intros Hl. unfold rests_normalized, nums. rewrite map_map.
  apply map_ext_in. intros z Hz.
  rewrite Forall_forall in Hl. specialize (Hl z Hz).
  unfold enabled. simpl. destruct (Z.leb_spec 0 z); [reflexivity|].
  f_equal. lia.
Qed.

(** X5.  [noteReverse] treats every member that fails [note >= 0] as a
    rest, whatever its value: when the rest value is negative, the output
    holds the rest value at exactly the positions where the input fails
    the test, and the members of the output that pass the test are those
    of the input in reverse order. *)
Theorem noteReverse_negative_is_rest (st : state) (valueList : array) :
  restValue st < 0 ->
  let out := valueOut (noteReverse valueList st) in
  filter enabled out = rev (filter enabled valueList) /\
  forall p,
    nth_error out p = Some (Num (restValue st)) <->
    exists x, nth_error valueList p = Some x /\ enabled x = false.
Proof.
  intros Hr out. subst out. split.
  - apply noteReverse_notes. assumption.
  - intros p. apply noteReverse_rests. assumption.
Qed.

Lemma noteReverse_negative_is_rest_witness :
  restValue with_envelope < 0 /\
  let out := valueOut (noteReverse (nums [4; -5; 7; -1]) with_envelope) in
  filter enabled out = rev (filter enabled (nums [4; -5; 7; -1])) /\
  forall p,
    nth_error out p = Some (Num (restValue with_envelope)) <->
    exists x, nth_error (nums [4; -5; 7; -1]) p = Some x /\ enabled x = false.
Proof.
  split; [reflexivity|].
  apply (noteReverse_negative_is_rest with_envelope (nums [4; -5; 7; -1])).
  reflexivity.
Defined.

(** X6.  On a value list whose only negative value is the rest -1,
    [noteReverse] is an involution: the value list of a second run on the
    value list of the first is the list one started from. *)
Theorem noteReverse_involution (st st' : state) (l : list Z) :
  restValue st = -1 ->
  restValue st' = -1 ->
  Forall (fun z => -1 <= z) l ->
  valueOut (noteReverse (valueOut (noteReverse (nums l) st)) st') = nums l.
Proof.
  intros Hr Hr' Hl.
  rewrite noteReverse_twice by lia.
  rewrite Hr. apply rests_normalized_nums. assumption.
Qed.

Lemma noteReverse_involution_witness :
  restValue with_envelope = -1 /\
  restValue (run [Msg_int 3 12] with_envelope) = -1 /\
  Forall (fun z => -1 <= z) [4; -1; 7; 0] /\
  valueOut
    (noteReverse (valueOut (noteReverse (nums [4; -1; 7; 0]) with_envelope))
       (run [Msg_int 3 12] with_envelope))
  = nums [4; -1; 7; 0].
Proof.
  assert (H : Forall (fun z => -1 <= z) [4; -1; 7; 0])
    by (repeat constructor; lia).
  split; [reflexivity|]. split; [reflexivity|]. split; [exact H|].
  apply (noteReverse_involution with_envelope
           (run [Msg_int 3 12] with_envelope) [4; -1; 7; 0]);
    [reflexivity|reflexivity|exact H].
Defined.

(** X7.  On a value list every member of which passes [note >= 0], that
    is, one without rests, [noteReverse] gives the reversed list, the
    value list [trueReverse] gives. *)
Theorem noteReverse_without_rests (st st' : state) (valueList : array) :
  Forall (fun v => enabled v = true) valueList ->
  valueOut (noteReverse valueList st) = rev valueList /\
  valueOut (noteReverse valueList st) = valueOut (trueReverse valueList st').
Proof.
  intros Hall.
  assert (H : valueOut (noteReverse valueList st) = rev valueList).
  { rewrite noteReverse_valueOut.
    assert (Hf : filter enabled valueList = valueList).
    { apply forallb_filter_id. apply forallb_forall.
      rewrite Forall_forall in Hall. exact Hall. }
    rewrite Hf. apply refill_all; [assumption|apply length_rev]. }
  split; [exact H|]. rewrite trueReverse_valueOut. exact H.
Qed.

Lemma noteReverse_without_rests_witness :
  Forall (fun v => enabled v = true) (nums [4; 0; 7]) /\
  valueOut (noteReverse (nums [4; 0; 7]) with_envelope) = rev (nums [4; 0; 7]) /\
  valueOut (noteReverse (nums [4; 0; 7]) with_envelope)
  = valueOut (trueReverse (nums [4; 0; 7]) init).
Proof.
  assert (H : Forall (fun v => enabled v = true) (nums [4; 0; 7]))
    by (repeat constructor).
  split; [exact H|].
  apply (noteReverse_without_rests with_envelope init (nums [4; 0; 7]) H).
Defined.

(** X8.  [noteReverse] commutes with reversal: the value list it gives
    for a reversed list is the reversal of the value list it gives for the
    list. *)
Theorem noteReverse_rev (st : state) (valueList : array) :
  valueOut (noteReverse (rev valueList) st)
  = rev (valueOut (noteReverse valueList st)).
Proof.
  rewrite !noteReverse_valueOut.
  rewrite refill_rev by apply length_rev.
  rewrite filter_rev. reflexivity.
Qed.

(** ** More on inverse *)

Lemma distances_at_rest (l : array) :
  forall prev i,
    (i < length l)%nat ->
    js_eq_num (aget l i) (-1) = true ->
    aget (distances prev l) i = Num 0.
Proof.
  induction l as [|c l IH]; intros prev i Hi Hrest; simpl in Hi; [lia|].
  destruct i as [|i]; cbn [distances].
  - unfold aget in Hrest. simpl in Hrest. rewrite Hrest. reflexivity.
  - destruct (js_eq_num c (-1)); apply IH; (lia || assumption).
Qed.

Lemma distances_at_note (l : list Z) :
  forall v i,
    Forall (fun z => z <> -1) l ->
    (i < length l)%nat ->
    aget (distances (Num v) (nums l)) i = Num (nth i (v :: l) 0 - nth i l 0).
Proof.
  induction l as [|c l IH]; intros v i Hall Hi; simpl in Hi; [lia|].
  inversion Hall as [|? ? Hc Hrest]; subst.
  cbn [nums map distances js_eq_num].
  destruct (Z.eqb_spec c (-1)) as [|_]; [contradiction|].
  destruct i as [|i]; [reflexivity|].
  change (aget (js_sub (Num v) (Num c) :: distances (Num c) (map Num l)) (S i))
    with (aget (distances (Num c) (nums l)) i).
  rewrite IH by (assumption || lia). reflexivity.
Qed.

(** One round of the second loop on a list without rests after its first
    value. *)
Lemma inverse_step_note (st : state) (v : Z) (l : list Z) (i : nat) :
  Forall (fun z => z <> -1) l ->
  (S i < length (v :: l))%nat ->
  let ul := fst (inverse (nums (v :: l)) st) in
  aget ul (S i)
  = js_rem
      (js_add (aget ul i) (Num (nth i (v :: l) 0 - nth (S i) (v :: l) 0)))
      (Num (maxPatternRange st)).
Proof.
  intros Hall Hi ul. subst ul. unfold inverse. cbn [fst].
  change (nums (v :: l)) with (Num v :: nums l).
  rewrite inverse_distances_cons.
  assert (Hlen : (i < length l)%nat) by (simpl in Hi; lia).
  rewrite inverse_updated_at
    by (simpl; rewrite distances_length, nums_length; lia).
  change (aget (Num v :: nums l) (S i)) with (aget (nums l) i).
  change (aget (Num 0 :: distances (Num v) (nums l)) (S i))
    with (aget (distances (Num v) (nums l)) i).
  rewrite distances_at_note by assumption.
  rewrite aget_nums.
  destruct (nth_error l i) as [x|] eqn:Hx;
    [|apply nth_error_None in Hx; lia].
  rewrite Forall_forall in Hall.
  pose proof (Hall x (nth_error_In _ _ Hx)) as Hne.
  simpl js_eq_num. destruct (Z.eqb_spec x (-1)) as [|_]; [contradiction|].
  reflexivity.
Qed.

Lemma rem_congruent (a b m : Z) :
  m <> 0 -> (Z.rem a m + b) mod m = (a + b) mod m.
Proof.
  intros Hm. pose proof (Z.quot_rem' a m) as Hq.
  replace (Z.rem a m + b) with (a + b + (- (a ÷ m)) * m) by lia.
  apply Z_mod_plus_full.
Qed.

Lemma inverse_first (st : state) (valueList : array) :
  aget (fst (inverse valueList st)) 0 = aget valueList 0.
Proof. unfold inverse. cbn [fst]. apply inverse_updated_first. Qed.

Lemma inverse_mirror_at (st : state) (v : Z) (l : list Z) :
  0 < maxPatternRange st ->
  Forall (fun z => z <> -1 /\ 0 <= 2 * v - z < maxPatternRange st) l ->
  forall i,
    (i < length (v :: l))%nat ->
    aget (fst (inverse (nums (v :: l)) st)) i
    = Num (2 * v - nth i (v :: l) 0).
Proof.
  intros Hm Hall.
  assert (Hnote : Forall (fun z => z <> -1) l).
  { eapply Forall_impl; [|exact Hall]. intros z [Hz _]. exact Hz. }
  induction i as [|i IH]; intros Hi.
  - rewrite inverse_first. unfold aget. cbn [nums map nth]. f_equal. lia.
  - rewrite inverse_step_note by assumption.
    rewrite IH by lia. cbn [js_add js_rem].
    destruct (Z.eqb_spec (maxPatternRange st) 0) as [|_]; [lia|].
    f_equal.
    replace (2 * v - nth i (v :: l) 0
             + (nth i (v :: l) 0 - nth (S i) (v :: l) 0))
      with (2 * v - nth (S i) (v :: l) 0) by lia.
    apply Z.rem_small.
    rewrite Forall_forall in Hall.
    assert (Hin : In (nth (S i) (v :: l) 0) l).
    { cbn [nth]. apply nth_In. simpl in Hi. lia. }
    apply (Hall _ Hin).
Qed.

(** On a list without rests after its first value [v], whose mirror
    images [2v - z] all lie in the pattern range, [inverse] is the mirror
    about [v]. *)
Lemma inverse_mirror_list (st : state) (v : Z) (l : list Z) :
  0 < maxPatternRange st ->
  Forall (fun z => z <> -1 /\ 0 <= 2 * v - z < maxPatternRange st) l ->
  fst (inverse (nums (v :: l)) st) = nums (v :: map (fun z => 2 * v - z) l).
Proof.
  intros Hm Hall.
  replace (v :: map (fun z => 2 * v - z) l)
    with (map (fun z => 2 * v - z) (v :: l))
    by (cbn [map]; f_equal; lia).
  apply nth_ext with (d := Undefined) (d' := Undefined).
  - rewrite inverse_length, !nums_length, length_map. simpl. lia.
  - intros i Hi. rewrite inverse_length, nums_length in Hi.
    assert (Hi' : (i < length (v :: l))%nat) by (simpl in *; lia).
    change (nth i (fst (inverse (nums (v :: l)) st)) Undefined)
      with (aget (fst (inverse (nums (v :: l)) st)) i).
    rewrite inverse_mirror_at by assumption.
    change (nth i (nums (map (fun z => 2 * v - z) (v :: l))) Undefined)
      with (aget (nums (map (fun z => 2 * v - z) (v :: l))) i).
    rewrite aget_nums.
    rewrite nth_error_map.
    rewrite (nth_error_nth' (v :: l) 0 Hi'). reflexivity.
Qed.

(** X9.  [inverse] copies the first value, and keeps every later rest: at
    an index [i >= 1] where the value list holds -1, the distance is 0
    and the output holds -1. *)
Theorem inverse_keeps_rests (st : state) (valueList : array) (i : nat) :
  (S i < length valueList)%nat ->
  js_eq_num (aget valueList (S i)) (-1) = true ->
  let st' := snd (inverse valueList st) in
  aget (valueOut st') 0 = aget valueList 0 /\
  aget (distanceList st') (S i) = Num 0 /\
  aget (valueOut st') (S i) = Num (-1).
Proof.
  intros Hi Hrest st'. subst st'. rewrite inverse_valueOut.
  split; [apply inverse_first|].
  unfold inverse. cbn [fst snd distanceList set_out set_lists].
  destruct valueList as [|v l]; [simpl in Hi; lia|].
  rewrite inverse_distances_cons.
  assert (Hl : (i < length l)%nat) by (simpl in Hi; lia).
  split.
  - change (aget (Num 0 :: distances v l) (S i)) with (aget (distances v l) i).
    apply distances_at_rest; assumption.
  - rewrite inverse_updated_at by (simpl; rewrite distances_length; lia).
    rewrite Hrest. reflexivity.
Qed.

Lemma inverse_keeps_rests_witness :
  (2 < length (nums [5; 3; -1; 2]%Z))%nat /\
  js_eq_num (aget (nums [5; 3; -1; 2]) 2) (-1) = true /\
  let st' := snd (inverse (nums [5; 3; -1; 2]) with_envelope) in
  aget (valueOut st') 0 = aget (nums [5; 3; -1; 2]) 0 /\
  aget (distanceList st') 2 = Num 0 /\
  aget (valueOut st') 2 = Num (-1).
Proof.
  assert (H : (2 < length (nums [5; 3; -1; 2]%Z))%nat) by (vm_compute; lia).
  split; [exact H|]. split; [reflexivity|].
  apply (inverse_keeps_rests with_envelope (nums [5; 3; -1; 2]) 1 H).
  reflexivity.
Defined.

(** X10.  On a value list without rests after its first value [v], with
    the values and a non-zero [maxPatternRange] within [exact_bound],
    every output value of [inverse] is a number congruent, modulo
    [maxPatternRange], to the mirror image [2v - x] of the input value [x]
    at its index: [inverse] is the inversion about the first note up to
    the pattern range. *)
Theorem inverse_is_inversion_mod
    (st : state) (v : Z) (l : list Z) (i : nat) (x : Z) :
  maxPatternRange st <> 0 ->
  exact_int (maxPatternRange st) ->
  Forall exact_int (v :: l) ->
  Forall (fun z => z <> -1) l ->
  nth_error (v :: l) i = Some x ->
  exists z,
    aget (valueOut (snd (inverse (nums (v :: l)) st))) i = Num z /\
    (z + x) mod maxPatternRange st = (2 * v) mod maxPatternRange st.
Proof.
  intros Hm _ _ Hall. rewrite inverse_valueOut. revert x.
  induction i as [|i IH]; intros x Hx.
  - simpl in Hx. injection Hx as <-. exists v. split.
    + rewrite inverse_first. reflexivity.
    + f_equal. lia.
  - assert (Hi : (S i < length (v :: l))%nat)
      by (apply nth_error_Some; congruence).
    destruct (IH (nth i (v :: l) 0)) as (z & Hz & Hcong).
    { apply nth_error_nth'. lia. }
    rewrite inverse_step_note by assumption.
    rewrite Hz. cbn [js_add js_rem].
    destruct (Z.eqb_spec (maxPatternRange st) 0) as [|_]; [contradiction|].
    rewrite (nth_error_nth _ _ 0 Hx).
    eexists. split; [reflexivity|].
    rewrite rem_congruent by assumption.
    rewrite <- Hcong. f_equal. lia.
Qed.

Lemma inverse_is_inversion_mod_witness :
  maxPatternRange with_envelope <> 0 /\
  exact_int (maxPatternRange with_envelope) /\
  Forall exact_int [5; 12; 3] /\
  Forall (fun z => z <> -1) [12; 3] /\
  nth_error [5; 12; 3] 1 = Some 12 /\
  exists z,
    aget (valueOut (snd (inverse (nums [5; 12; 3]) with_envelope))) 1 = Num z /\
    (z + 12) mod maxPatternRange with_envelope
    = (2 * 5) mod maxPatternRange with_envelope.
Proof.
  assert (H : Forall (fun z => z <> -1) [12; 3])
    by (repeat constructor; lia).
  assert (Hm : maxPatternRange with_envelope <> 0)
    by (vm_compute; discriminate).
  assert (He : exact_int (maxPatternRange with_envelope))
    by (vm_compute; split; discriminate).
  assert (Hb : Forall exact_int [5; 12; 3])
    by (repeat constructor; vm_compute; discriminate).
  split; [exact Hm|]. split; [exact He|]. split; [exact Hb|].
  split; [exact H|]. split; [reflexivity|].
  apply (inverse_is_inversion_mod with_envelope 5 [12; 3] 1 12 Hm He Hb H).
  reflexivity.
Defined.

(** X11.  In mode 3, for a value list without rests after its first value
    [v], whose mirror images [2v - z] all lie in [0, maxPatternRange),
    with [v] and [maxPatternRange] within [exact_bound], the pitch output
    is the first value followed by the mirror images: no wrap-around
    takes place. *)
Theorem inverse_mirror (st : state) (v : Z) (l : list Z) :
  (0 < length (sustainList st))%nat ->
  updateMode st = 3 ->
  0 < maxPatternRange st <= exact_bound ->
  exact_int v ->
  Forall (fun z => z <> -1 /\ 0 <= 2 * v - z < maxPatternRange st) l ->
  pitch_of (list_ 0 (nums (v :: l)) st)
  = [nums (v :: map (fun z => 2 * v - z) l)].
Proof.
  intros Hlen Hmode [Hm _] _ Hall.
  rewrite list_modify by assumption. rewrite output_pitch.
  unfold modify. rewrite Hmode. cbn [Z.eqb Pos.eqb].
  rewrite inverse_valueOut, inverse_mirror_list by assumption. reflexivity.
Qed.

Lemma inverse_mirror_witness :
  (0 < length (sustainList (run [Msg_int 2 3] with_envelope)))%nat /\
  updateMode (run [Msg_int 2 3] with_envelope) = 3 /\
  0 < maxPatternRange (run [Msg_int 2 3] with_envelope) <= exact_bound /\
  exact_int 5 /\
  Forall (fun z => z <> -1 /\
                   0 <= 2 * 5 - z < maxPatternRange (run [Msg_int 2 3] with_envelope))
    [3; 7; 10] /\
  pitch_of (list_ 0 (nums [5; 3; 7; 10]) (run [Msg_int 2 3] with_envelope))
  = [nums (5 :: map (fun z => 2 * 5 - z) [3; 7; 10])].
Proof.
  assert (H1 : (0 < length (sustainList (run [Msg_int 2 3] with_envelope)))%nat)
    by (vm_compute; lia).
  assert (H2 : 0 < maxPatternRange (run [Msg_int 2 3] with_envelope)
               <= exact_bound)
    by (vm_compute; split; [reflexivity|discriminate]).
  assert (He : exact_int 5) by (vm_compute; split; discriminate).
  assert (H3 : Forall (fun z => z <> -1 /\
                   0 <= 2 * 5 - z < maxPatternRange (run [Msg_int 2 3] with_envelope))
                 [3; 7; 10])
    by (repeat constructor; vm_compute; try discriminate; lia).
  split; [exact H1|]. split; [reflexivity|]. split; [exact H2|].
  split; [exact He|]. split; [exact H3|].
  apply (inverse_mirror (run [Msg_int 2 3] with_envelope) 5 [3; 7; 10] H1
           eq_refl H2 He H3).
Defined.

(** X12.  On a value list whose values after the first value [v] lie in
    [0, maxPatternRange) together with their mirror images [2v - z],
    [inverse] is an involution: a second run on the value list of the
    first gives back the list one started from. *)
Theorem inverse_involution (st st' : state) (v : Z) (l : list Z) :
  0 < maxPatternRange st ->
  maxPatternRange st' = maxPatternRange st ->
  Forall (fun z => 0 <= z < maxPatternRange st /\
                   0 <= 2 * v - z < maxPatternRange st) l ->
  valueOut (snd (inverse (valueOut (snd (inverse (nums (v :: l)) st))) st'))
  = nums (v :: l).
Proof.
  intros Hm Hm' Hall.
  rewrite !inverse_valueOut.
  assert (Hall1 : Forall (fun z => z <> -1 /\
                            0 <= 2 * v - z < maxPatternRange st) l).
  { eapply Forall_impl; [|exact Hall].
    cbv beta. intros z [H1 H2]. split; [lia|exact H2]. }
  rewrite (inverse_mirror_list st v l Hm Hall1).
  rewrite inverse_mirror_list.
  - rewrite map_map. f_equal. f_equal.
    rewrite <- (map_id l) at 2. apply map_ext. intros z. lia.
  - rewrite Hm'. assumption.
  - rewrite Hm'. apply Forall_forall. intros z' Hz'.
    apply in_map_iff in Hz'. destruct Hz' as (z & <- & Hz).
    rewrite Forall_forall in Hall. specialize (Hall z Hz). lia.
Qed.

Lemma inverse_involution_witness :
  0 < maxPatternRange with_envelope /\
  maxPatternRange init = maxPatternRange with_envelope /\
  Forall (fun z => 0 <= z < maxPatternRange with_envelope /\
                   0 <= 2 * 5 - z < maxPatternRange with_envelope) [3; 7; 10] /\
  valueOut
    (snd (inverse
            (valueOut (snd (inverse (nums [5; 3; 7; 10]) with_envelope))) init))
  = nums [5; 3; 7; 10].
Proof.
  assert (H : Forall (fun z => 0 <= z < maxPatternRange with_envelope /\
                   0 <= 2 * 5 - z < maxPatternRange with_envelope) [3; 7; 10])
    by (repeat constructor; vm_compute; try discriminate; lia).
  split; [reflexivity|]. split; [reflexivity|]. split; [exact H|].
  apply (inverse_involution with_envelope init 5 [3; 7; 10]);
    [reflexivity|reflexivity|exact H].
Defined.

(** ** What the handlers keep and what they forget *)

Lemma noteReverse_set_out (valueList : array) (st : state) :
  noteReverse valueList st
  = set_out (valueOut (noteReverse valueList st)) (copy_sustain st) st.
Proof. unfold noteReverse. rewrite collect_loop. reflexivity. Qed.

Lemma modify_constants (valueList : array) (st : state) :
  constants (modify valueList st) = constants st.
Proof.
  unfold modify.
  destruct (updateMode st =? 0); [reflexivity|].
  destruct (updateMode st =? 1);
    [rewrite noteReverse_set_out; reflexivity|].
  destruct (updateMode st =? 2); [reflexivity|].
  destruct (updateMode st =? 3); reflexivity.
Qed.

Lemma handle_constants (m : message) (st : state) :
  constants (final (handle m st)) = constants st.
Proof.
  destruct m as [inlet i|inlet arguments]; simpl.
  - unfold msg_int.
    destruct (inlet =? 2); [reflexivity|].
    destruct (inlet =? 3); reflexivity.
  - unfold list_.
    destruct (inlet =? 0).
    + destruct (length (sustainList st) <=? 0)%nat; [reflexivity|].
      apply modify_constants.
    + destruct (inlet =? 1); reflexivity.
Qed.

Lemma run_constants (ms : list message) :
  forall st, constants (run ms st) = constants st.
Proof.
  unfold run. induction ms as [|m ms IH]; intros st; simpl; [reflexivity|].
  rewrite IH. apply handle_constants.
Qed.

Lemma modify_valueOut_agree (valueList : array) (st1 st2 : state) :
  updateMode st1 = updateMode st2 ->
  constants st1 = constants st2 ->
  valueOut (modify valueList st1) = valueOut (modify valueList st2).
Proof.
  intros Hmode Hc. unfold constants in Hc. injection Hc as Hrow Hrest Hrange.
  unfold modify. rewrite Hmode.
  destruct (updateMode st2 =? 0); [rewrite !identity_valueOut; reflexivity|].
  destruct (updateMode st2 =? 1);
    [rewrite !noteReverse_valueOut, Hrest; reflexivity|].
  destruct (updateMode st2 =? 2);
    [rewrite !trueReverse_valueOut; reflexivity|].
  assert (Hinv : fst (inverse valueList st1) = fst (inverse valueList st2)).
  { unfold inverse. cbn [fst]. rewrite Hrange. reflexivity. }
  destruct (updateMode st2 =? 3).
  - rewrite !inverse_valueOut. exact Hinv.
  - rewrite !reverseInverse_valueOut, Hinv. reflexivity.
Qed.

Lemma envelopeInverseMap_unknown (k : Z) :
  k < 0 \/ 3 < k -> envelopeInverseMap (Num k) = Undefined.
Proof.
  intros Hk. unfold envelopeInverseMap, envelopeInverseMap_object.
  unfold full, attack, sustain, release. cbn [object_get].
  destruct (Z.eqb_spec 3 k); [lia|].
  destruct (Z.eqb_spec 2 k); [lia|].
  destruct (Z.eqb_spec 1 k); [lia|].
  destruct (Z.eqb_spec 0 k); [lia|].
  reflexivity.
Qed.

(** X13.  No message changes [matrixRow], [restValue] or
    [maxPatternRange]: after every sequence of messages from the initial
    globals they are 0, -1 and 15.  In particular an integer at inlet 3
    does not set the range of the remainder in [inverse]. *)
Theorem constants_never_change (ms : list message) :
  constants (run ms init) = (0, -1, 15).
Proof. rewrite run_constants. reflexivity. Qed.

(** X14.  A transform reads the stored sustain list, the update mode and
    the three constants and nothing else: from two states that agree on
    these, whatever earlier transforms left in [valueOut], [sustainOut],
    [distanceList] and [updatedList], the same value list completes alike
    and emits the same lists. *)
Theorem transform_forgets_history (st1 st2 : state) (valueList : array) :
  sustainList st1 = sustainList st2 ->
  updateMode st1 = updateMode st2 ->
  constants st1 = constants st2 ->
  how (list_ 0 valueList st1) = how (list_ 0 valueList st2) /\
  emitted (list_ 0 valueList st1) = emitted (list_ 0 valueList st2).
Proof.
  intros Hsl Hmode Hc.
  destruct (Nat.lt_ge_cases 0 (length (sustainList st1))) as [Hlen|Hlen].
  - assert (Hlen2 : (0 < length (sustainList st2))%nat)
      by (rewrite <- Hsl; exact Hlen).
    rewrite !list_modify by assumption. cbn [how emitted].
    split; [reflexivity|].
    rewrite !output_two by (rewrite modify_sustainOut_length; lia).
    rewrite !modify_sustainOut.
    rewrite (modify_valueOut_agree valueList st1 st2 Hmode Hc).
    unfold constants in Hc. injection Hc as Hrow _ _.
    rewrite Hsl, Hmode, Hrow. reflexivity.
  - unfold list_. simpl. rewrite <- Hsl.
    destruct (Nat.leb_spec (length (sustainList st1)) 0) as [_|]; [|lia].
    split; reflexivity.
Qed.

Lemma transform_forgets_history_witness :
  let st1 := run [Msg_int 2 1] with_envelope in
  let st2 :=
    run [Msg_int 2 3; Msg_list 0 (nums [5; 3; 7]); Msg_int 3 9; Msg_int 2 1]
      with_envelope in
  sustainList st1 = sustainList st2 /\
  updateMode st1 = updateMode st2 /\
  constants st1 = constants st2 /\
  how (list_ 0 (nums [4; -1; 7]) st1) = how (list_ 0 (nums [4; -1; 7]) st2) /\
  emitted (list_ 0 (nums [4; -1; 7]) st1)
  = emitted (list_ 0 (nums [4; -1; 7]) st2).
Proof.
  cbv zeta.
  split; [vm_compute; reflexivity|].
  split; [vm_compute; reflexivity|].
  split; [vm_compute; reflexivity|].
  apply (transform_forgets_history
           (run [Msg_int 2 1] with_envelope)
           (run [Msg_int 2 3; Msg_list 0 (nums [5; 3; 7]); Msg_int 3 9;
                 Msg_int 2 1] with_envelope)
           (nums [4; -1; 7]));
    vm_compute; reflexivity.
Defined.

(** X15.  A non-empty list at inlet 1 emits nothing and replaces the
    stored sustain list as a whole, whatever was stored before; a value
    list sent next in mode 0 emits a sustain output whose stages are the
    members of that list, in order. *)
Theorem sustain_list_round_trip (st : state) (arguments valueList : array) :
  (0 < length arguments)%nat ->
  updateMode st = 0 ->
  let o := list_ 1 arguments st in
  emitted o = [] /\
  sustainList (final o) = arguments /\
  exists so,
    sustain_of (list_ 0 valueList (final o)) = [so] /\ stages so = arguments.
Proof.
  intros Hlen Hmode o. subst o. rewrite sustain_list_stored.
  cbn [emitted final].
  split; [reflexivity|]. split; [reflexivity|].
  set (st' := set_sustainList arguments st).
  assert (Hlen' : (0 < length (sustainList st'))%nat) by exact Hlen.
  exists (sustainOut (modify valueList st')).
  rewrite list_modify by assumption. split.
  - apply output_sustain. rewrite modify_sustainOut_length. lia.
  - rewrite modify_sustainOut, stages_entries.
    change (updateMode st') with (updateMode st). rewrite Hmode.
    unfold stage_of_mode. cbn [Z.eqb orb].
    apply (tabulate_aget arguments).
Qed.

Lemma sustain_list_round_trip_witness :
  (0 < length (nums [3; 0; 2]%Z))%nat /\
  updateMode with_envelope = 0 /\
  let o := list_ 1 (nums [3; 0; 2]) with_envelope in
  emitted o = [] /\
  sustainList (final o) = nums [3; 0; 2] /\
  exists so,
    sustain_of (list_ 0 (nums [5; 7]) (final o)) = [so] /\
    stages so = nums [3; 0; 2].
Proof.
  assert (H : (0 < length (nums [3; 0; 2]%Z))%nat) by (vm_compute; lia).
  split; [exact H|]. split; [reflexivity|].
  apply (sustain_list_round_trip with_envelope (nums [3; 0; 2]) (nums [5; 7]) H).
  reflexivity.
Defined.

(** X16.  A list without members at inlet 1 empties the stored sustain
    list: the next value list at inlet 0 throws "Sustain List has not
    been set" in every mode and emits nothing, as before any sustain list
    was stored. *)
Theorem empty_sustain_list_unsets (st : state) (valueList : array) :
  let st' := final (list_ 1 [] st) in
  sustainList st' = [] /\
  list_ 0 valueList st' = mkOutcome MissingEnvelope st' [].
Proof. split; reflexivity. Qed.

(** X17.  A sustain code outside 0..3 is copied through by [identity] and
    is read as [undefined] from the swap table by [trueReverse]: the stage
    at its index in the sustain output is [undefined]. *)
Theorem unknown_sustain_code (st : state) (valueList : array) (j : nat) (k : Z) :
  nth_error (sustainList st) j = Some (Num k) ->
  k < 0 \/ 3 < k ->
  nth_error (stages (sustainOut (identity valueList st))) j = Some (Num k) /\
  nth_error (stages (sustainOut (trueReverse valueList st))) j = Some Undefined.
Proof.
  intros Hj Hk. split.
  - change (sustainOut (identity valueList st)) with (copy_sustain st).
    rewrite copy_sustain_stages. exact Hj.
  - rewrite trueReverse_stages, nth_error_map, Hj. cbn [option_map].
    rewrite envelopeInverseMap_unknown by assumption. reflexivity.
Qed.

Lemma unknown_sustain_code_witness :
  let st := run [Msg_list 1 (nums [1; 7; 3])] init in
  nth_error (sustainList st) 1 = Some (Num 7) /\
  (7 < 0 \/ 3 < 7) /\
  nth_error (stages (sustainOut (identity (nums [4; 5]) st))) 1
  = Some (Num 7) /\
  nth_error (stages (sustainOut (trueReverse (nums [4; 5]) st))) 1
  = Some Undefined.
Proof.
  cbv zeta.
  assert (H : 7 < 0 \/ 3 < 7) by (right; lia).
  split; [reflexivity|]. split; [exact H|].
  apply (unknown_sustain_code (run [Msg_list 1 (nums [1; 7; 3])] init)
           (nums [4; 5]) 1 7); [reflexivity|exact H].
Defined.

(** X18.  The value list [reverseInverse] leaves is the reversal of the
    one [inverse] leaves for the same input; as [inverse] copies the first
    value, the last member of the output of [reverseInverse] on a
    non-empty list is the first input value. *)
Theorem reverseInverse_ends_on_first
    (st : state) (v : value) (l : array) :
  valueOut (reverseInverse (v :: l) st)
  = rev (valueOut (snd (inverse (v :: l) st))) /\
  last (valueOut (reverseInverse (v :: l) st)) Undefined = v.
Proof.
  rewrite reverseInverse_valueOut, inverse_valueOut.
  split; [reflexivity|].
  pose proof (inverse_first st (v :: l)) as Hfirst.
  pose proof (inverse_length (v :: l) st) as Hlen.
  destruct (fst (inverse (v :: l) st)) as [|u ul]; [discriminate|].
  unfold aget in Hfirst. simpl in Hfirst. subst u.
  simpl rev. apply last_last.
Qed.
